(** * fc2-live-dl: the variant selector, the recorder status parser and the
      control-channel client of [fc2_live_dl2.py], embedded and verified.

    The development follows the source file top to bottom:
    - [Py]: the handful of Python built-ins the program relies on
      (exceptions as a result type, [dict] look-up, [str.split],
      [sorted(..., reverse=True, key=...)], JSON values);
    - [FC2LiveDL]: [_get_mode], [_format_mode], [_merge_playlists],
      [_sort_playlists], [_get_playlist_or_best], [_get_hls_url];
    - [LiveStreamRecorder]: [get_status], [print_status];
    - [FC2WebSocket]: the session object, its three kinds of tasks and the
      interleaving of their suspension points. *)

From stdpp Require Import base option list gmap strings sorting.
From Stdlib Require Import ZArith Lia.
From Stdlib Require Import Ascii.

Local Open Scope Z_scope.

(** ** Python built-ins *)

Module Py.

(** The exception classes that the modelled code can raise or has to
    catch.  The last three are the classes declared inside [FC2WebSocket]. *)
Inductive exn : Set :=
| KeyError
| IndexError
| ValueError
| TypeError
| IncompleteReadError
| LimitOverrunError
| UnicodeDecodeError
| CancelledError
| ServerDisconnection
| MultipleConnectionError
| PaidProgramDisconnection.

(** A computation either returns or raises. *)
Inductive result (A : Type) : Type :=
| Ok (a : A)
| Raise (e : exn).
Global Arguments Ok {A} a.
Global Arguments Raise {A} e.

Global Instance result_ret : MRet result := fun _ a => Ok a.
Global Instance result_bind : MBind result := fun _ _ f m =>
  match m with Ok a => f a | Raise e => Raise e end.

Definition is_ok {A} (r : result A) : bool :=
  match r with Ok _ => true | Raise _ => false end.

(** [for x in xs: body], where the body may raise: the first exception
    leaves the loop. *)
Fixpoint for_each {A S} (body : S → A → result S) (xs : list A) (s : S)
  : result S :=
  match xs with
  | [] => Ok s
  | x :: xs' => s' ← body s x; for_each body xs' s'
  end.

(** A [dict] literal whose iteration order matters, as an insertion-ordered
    list of items.  [d[k]] raises [KeyError] on a missing key. *)
Fixpoint dict_getitem {V} (d : list (string * V)) (k : string) : result V :=
  match d with
  | [] => Raise KeyError
  | (k', v) :: d' => if decide (k' = k) then Ok v else dict_getitem d' k
  end.

Definition keys {V} (d : list (string * V)) : list string := d.*1.
Definition values {V} (d : list (string * V)) : list V := d.*2.

(** [xs.index(x)]: position of the first occurrence, [ValueError] if
    there is none. *)
Fixpoint list_index (xs : list Z) (x : Z) : result nat :=
  match xs with
  | [] => Raise ValueError
  | y :: xs' => if decide (y = x) then Ok 0%nat
                else i ← list_index xs' x; Ok (S i)
  end.

(** [xs[i]] for a non-negative [i]. *)
Definition list_getitem {A} (xs : list A) (i : nat) : result A :=
  match xs !! i with Some x => Ok x | None => Raise IndexError end.

(** [sorted(xs, reverse=True, key=key)].  Python documents the sort as
    stable, also under [reverse=True]: elements with equal keys keep
    their original relative order.  The result of a stable sort is
    determined by that contract (see [stable_sort_unique]); it is
    computed here by insertion from the right. *)
Fixpoint insert_desc {A} (key : A → Z) (x : A) (l : list A) : list A :=
  match l with
  | [] => [x]
  | y :: l' => if decide (key y ≤ key x) then x :: y :: l'
               else y :: insert_desc key x l'
  end.

Definition sorted_reverse {A} (key : A → Z) (xs : list A) : list A :=
  foldr (insert_desc key) [] xs.

(** A [str] is kept as the bytes of its UTF-8 encoding.  The code below
    only looks for the ASCII characters [' '] and ['='], which no
    multi-byte sequence contains, so splitting and testing the bytes is
    splitting and testing the characters.

    [s.split(sep)] for a one-character separator: every occurrence of
    [sep] ends a piece, so [n] occurrences give [n + 1] pieces, some of
    which may be empty. *)
Fixpoint split (sep : ascii) (s : string) : list string :=
  match s with
  | EmptyString => [EmptyString]
  | String c s' =>
      if decide (c = sep) then EmptyString :: split sep s'
      else match split sep s' with
           | piece :: pieces => String c piece :: pieces
           | [] => [String c EmptyString]
           end
  end.

(** [c in s] for a character [c]. *)
Fixpoint contains (c : ascii) (s : string) : bool :=
  match s with
  | EmptyString => false
  | String c' s' => if decide (c' = c) then true else contains c s'
  end.

(** [s[-1]] and [s[:-1]]. *)
Fixpoint last_char (s : string) : result ascii :=
  match s with
  | EmptyString => Raise IndexError
  | String c EmptyString => Ok c
  | String _ s' => last_char s'
  end.

Fixpoint drop_last (s : string) : string :=
  match s with
  | EmptyString => EmptyString
  | String _ EmptyString => EmptyString
  | String c s' => String c (drop_last s')
  end.

(** Decoded JSON, which is also the shape of every run-time value the
    modelled code handles.  Numbers are the integers: the protocol's
    ids, codes and modes are integers, and no float is modelled. *)
Local Unset Elimination Schemes.
Inductive value : Type :=
| VNone
| VBool (b : bool)
| VInt (n : Z)
| VStr (s : string)
| VList (xs : list value)
| VDict (items : list (string * value)).
Local Set Elimination Schemes.

(** [v[k]] for a string key [k]: a look-up in a dict, [TypeError] on
    everything else (a list or a string wants an integer index, the
    other values are not subscriptable). *)
Definition getitem (v : value) (k : string) : result value :=
  match v with
  | VDict items => dict_getitem items k
  | _ => Raise TypeError
  end.

(** [v == s] for a string literal [s] and [v == n] for an integer literal
    [n] ([True == 1] and [False == 0] in Python). *)
Definition eq_str (v : value) (s : string) : bool :=
  match v with VStr t => bool_decide (t = s) | _ => false end.

Definition eq_int (v : value) (n : Z) : bool :=
  match v with
  | VInt k => bool_decide (k = n)
  | VBool b => bool_decide (Z.b2z b = n)
  | _ => false
  end.

(** The elements [for x in v] visits. *)
Fixpoint chars (s : string) : list value :=
  match s with
  | EmptyString => []
  | String c s' => VStr (String c EmptyString) :: chars s'
  end.

Definition iter (v : value) : result (list value) :=
  match v with
  | VList xs => Ok xs
  | VStr s => Ok (chars s)
  | VDict items => Ok (VStr <$> keys items)
  | VNone | VBool _ | VInt _ => Raise TypeError
  end.

End Py.
Import Py.

(** ** class FC2LiveDL: the variant selector *)

Module FC2LiveDL.

(** One entry of a playlist list of the HLS information, [{mode, url}]. *)
Record playlist : Set := Playlist { mode : Z; url : string }.

Global Instance playlist_eq_dec : EqDecision playlist.
Proof. solve_decision. Defined.

(** The HLS information: a dict with the optional keys [playlists],
    [playlists_high_latency] and [playlists_middle_latency], each bound
    to a list of entries. *)
Abbreviation hls_information := (gmap string (list playlist)).

Definition STREAM_QUALITY : list (string * Z) :=
  [ ("150Kbps", 10); ("400Kbps", 20); ("1.2Mbps", 30);
    ("2Mbps", 40); ("3Mbps", 50); ("sound", 90) ].

Definition STREAM_LATENCY : list (string * Z) :=
  [ ("low", 0); ("high", 1); ("mid", 2) ].

(** [self.params], with the class defaults. *)
Record parameters : Set := Parameters {
  quality : string;
  latency : string;
  outtmpl : string;
  save_chat : bool;
  wait_for_live : bool;
  wait_poll_interval : Z
}.

Definition params : parameters :=
  {| quality := "3Mbps";
     latency := "mid";
     outtmpl := "%(channel_id)s-%(date)s-%(title)s.%(ext)s";
     save_chat := false;
     wait_for_live := false;
     wait_poll_interval := 5 |}.

Definition _get_mode (self : parameters) : result Z :=
  let mode := 0 in
  q ← dict_getitem STREAM_QUALITY (quality self);
  let mode := mode + q in
  l ← dict_getitem STREAM_LATENCY (latency self);
  let mode := mode + l in
  Ok mode.

Definition dict_search (haystack : list (string * Z)) (needle : Z)
  : result string :=
  i ← list_index (values haystack) needle;
  list_getitem (keys haystack) i.

(** [%] and [//] on Python integers round towards minus infinity, as
    [Z.modulo] and [Z.div] do for a positive divisor. *)
Definition _format_mode (mode : Z) : result (string * string) :=
  latency ← dict_search STREAM_LATENCY (mode `mod` 10);
  quality ← dict_search STREAM_QUALITY (mode `div` 10 * 10);
  Ok (quality, latency).

Definition _merge_playlists (hls_info : hls_information) : list playlist :=
  fold_left
    (fun playlists name =>
       match hls_info !! name with
       | Some entries => playlists ++ entries
       | None => playlists
       end)
    [ "playlists"; "playlists_high_latency"; "playlists_middle_latency" ]
    [].

Definition key_map (playlist : playlist) : Z :=
  let mode := mode playlist in
  if decide (90 ≤ mode) then mode - 90 else mode.

Definition _sort_playlists (merged_playlists : list playlist)
  : list playlist :=
  sorted_reverse key_map merged_playlists.

(** The loop keeps in [playlist] the last entry whose mode equals the
    requested one ([None] while there was none); [sorted_playlists[0]]
    raises [IndexError] on an empty list. *)
Definition _get_playlist_or_best (sorted_playlists : list playlist)
    (mode' : option Z) : result playlist :=
  let playlist :=
    fold_left
      (fun playlist p =>
         if decide (Some (mode p) = mode') then Some p else playlist)
      sorted_playlists None in
  match playlist with
  | Some p => Ok p
  | None => list_getitem sorted_playlists 0
  end.

Definition _get_hls_url (self : parameters) (hls_info : hls_information)
  : result string :=
  mode ← _get_mode self;
  let p_merged := _merge_playlists hls_info in
  let p_sorted := _sort_playlists p_merged in
  playlist ← _get_playlist_or_best p_sorted (Some mode);
  Ok (url playlist).

End FC2LiveDL.
Import FC2LiveDL.

(** ** class Logger *)

Module Logger.

Definition LOGLEVEL_NONE : Z := 0.
Definition LOGLEVEL_ERROR : Z := 1.
Definition LOGLEVEL_WARN : Z := 2.
Definition LOGLEVEL_INFO : Z := 3.
Definition LOGLEVEL_DEBUG : Z := 4.
Definition LOGLEVEL_TRACE : Z := 5.

(** One call of [print]: the objects printed and the [end] string. *)
Record print_call : Type := Print { objects : list value; end_ : string }.

(** What the loggers share: the class attribute [loglevel] and the
    terminal they print to. *)
Record console : Type := Console { loglevel : Z; stdout : list print_call }.

Definition initial : console :=
  {| loglevel := LOGLEVEL_INFO; stdout := [] |}.

Definition ESC : string := String "027" "".
Definition CR : string := String "013" "".
Definition LF : string := String "010" "".

Definition print (objects : list value) (end_ : string) (c : console)
  : console :=
  {| loglevel := loglevel c; stdout := stdout c ++ [Print objects end_] |}.

Definition _print (module prefix : string) (args : list value)
    (end_ : string) : console → console :=
  print (VStr (prefix +:+ "[" +:+ module +:+ "]") :: args
           ++ [VStr (ESC +:+ "[0m")]) end_.

Definition trace (module : string) (args : list value) (c : console)
  : console :=
  if decide (LOGLEVEL_TRACE ≤ loglevel c)
  then _print module (ESC +:+ "[35m") args LF c else c.

Definition debug (module : string) (args : list value) (c : console)
  : console :=
  if decide (LOGLEVEL_DEBUG ≤ loglevel c)
  then _print module (ESC +:+ "[36m") args LF c else c.

Definition infol (module : string) (args : list value) (c : console)
  : console :=
  if decide (LOGLEVEL_INFO ≤ loglevel c)
  then _print module (ESC +:+ "[2K") args CR c else c.

Definition endl (c : console) : console :=
  if decide (LOGLEVEL_INFO ≤ loglevel c)
  then print [VStr ""] LF c else c.

End Logger.

(** ** class LiveStreamRecorder: the status line of the recorder *)

Module LiveStreamRecorder.

Definition default_stats : gmap string value :=
  {[ "frame" := VInt 0;
     "fps" := VInt 0;
     "q" := VInt 0;
     "size" := VStr "0kB";
     "time" := VStr "00:00:00.00";
     "bitrate" := VStr "N/A";
     "speed" := VStr "N/A" ]}.

(** [stats[k]]. *)
Definition stats_getitem (stats : gmap string value) (k : string)
  : result value :=
  match stats !! k with Some v => Ok v | None => Raise KeyError end.

(** [k, v = pieces]: exactly two pieces, [ValueError] otherwise. *)
Definition unpack2 (pieces : list string) : result (string * string) :=
  match pieces with
  | [k; v] => Ok (k, v)
  | _ => Raise ValueError
  end.

(** The body of [for item in parts], on the loop's two variables. *)
Definition get_status_item (vars : gmap string value * string)
    (item : string) : result (gmap string value * string) :=
  let '(stats, last_item) := vars in
  c ← last_char last_item;
  stats ←
    (if decide (c = "="%char)
     then Ok (<[drop_last last_item := VStr item]> stats)
     else if contains "=" item
     then '(k, v) ← unpack2 (split "=" item); Ok (<[k := VStr v]> stats)
     else Ok stats);
  Ok (stats, item).

Definition parts (stderr : string) : list string :=
  filter (fun x => (0 < String.length x)%nat) (split " " stderr).

(** [read] is the outcome of the first statement,
    [(await self._ffmpeg.stderr.readuntil(b'\r')).decode('utf-8')]:
    the decoded text up to and including the carriage return, or the
    exception of the stream reader ([IncompleteReadError] when the
    stream ends first) or of the decoder. *)
Definition get_status (read : result string) : result (gmap string value) :=
  stderr ← read;
  let stats := default_stats in
  let last_item := "-" in
  vars ← for_each get_status_item (parts stderr) (stats, last_item);
  Ok vars.1.

(** The bare [except:] catches whatever the [try] block raised. *)
Definition print_status (read : result string) (c : Logger.console)
  : bool * Logger.console :=
  match status ← get_status read;
        time ← stats_getitem status "time";
        size ← stats_getitem status "size";
        Ok [time; size]
  with
  | Ok args => (true, Logger.infol "recording" args c)
  | Raise _ => (false, Logger.endl c)
  end.

End LiveStreamRecorder.
Import LiveStreamRecorder.

(** ** class FC2WebSocket: the control-channel client *)

Module FC2WebSocket.

Definition heartbeat_interval : Z := 30.

(** The session object.  [comments] holds the items of the
    [asyncio.Queue()], oldest first; [console] is where the logger
    ['ws'] prints; [inbox] and [outbox] stand for the socket [_ws]: the
    frames the server has sent and no [receive_json()] has taken yet,
    and the frames handed to [send_json]. *)
Record session : Type := Session {
  _msg_id : Z;
  _msg_responses : gmap Z value;
  _is_ready : bool;
  comments : list value;
  console : Logger.console;
  inbox : list value;
  outbox : list value
}.

Definition __init__ (frames : list value) : session :=
  {| _msg_id := 0;
     _msg_responses := ∅;
     _is_ready := false;
     comments := [];
     console := Logger.initial;
     inbox := frames;
     outbox := [] |}.

Definition set_msg_id (n : Z) (s : session) : session :=
  Session n (_msg_responses s) (_is_ready s) (comments s) (console s)
          (inbox s) (outbox s).
Definition set_msg_responses (t : gmap Z value) (s : session) : session :=
  Session (_msg_id s) t (_is_ready s) (comments s) (console s)
          (inbox s) (outbox s).
Definition set_is_ready (b : bool) (s : session) : session :=
  Session (_msg_id s) (_msg_responses s) b (comments s) (console s)
          (inbox s) (outbox s).
Definition set_comments (q : list value) (s : session) : session :=
  Session (_msg_id s) (_msg_responses s) (_is_ready s) q (console s)
          (inbox s) (outbox s).
Definition set_console (c : Logger.console) (s : session) : session :=
  Session (_msg_id s) (_msg_responses s) (_is_ready s) (comments s) c
          (inbox s) (outbox s).
Definition set_inbox (i : list value) (s : session) : session :=
  Session (_msg_id s) (_msg_responses s) (_is_ready s) (comments s)
          (console s) i (outbox s).
Definition set_outbox (o : list value) (s : session) : session :=
  Session (_msg_id s) (_msg_responses s) (_is_ready s) (comments s)
          (console s) (inbox s) o.

(** [self._logger.trace(...)] and [self._logger.debug(...)]. *)
Definition trace (args : list value) (s : session) : session :=
  set_console (Logger.trace "ws" args (console s)) s.
Definition debug (args : list value) (s : session) : session :=
  set_console (Logger.debug "ws" args (console s)) s.

(** *** Coroutines

    Calling an [async def] function only builds a coroutine object; its
    body runs when the object is awaited.  An expression statement that
    builds one and drops it runs nothing. *)
Definition coroutine (A : Type) : Type := session → A * session.
Definition await {A} (c : coroutine A) (s : session) : A * session := c s.
Definition dropped {A} (c : coroutine A) (s : session) : session := s.

(** [asyncio.Queue.put] is declared [async def put(self, item)]; the
    queue is unbounded, so its body appends without waiting. *)
Definition Queue_put (item : value) : coroutine unit :=
  fun s => (tt, set_comments (comments s ++ [item]) s).

(** *** What a task does between two suspension points

    A stretch of code either returns, raises, or reaches the next
    [await] that has to wait. *)
Inductive progress (A : Type) : Type :=
| Returns (a : A)
| Raises (e : exn)
| Awaits.
Global Arguments Returns {A} a.
Global Arguments Raises {A} e.
Global Arguments Awaits {A}.

(** [self._msg_responses[key] = v].  The table is only ever read at the
    integer [msg_id], so it is kept as a map on [Z]: an integer key (or
    a boolean, which Python identifies with 0 or 1) is stored; a string
    or [None] key is hashable and stored by Python where no integer
    look-up finds it, which leaves the map on [Z] as it is; a list or a
    dict is unhashable. *)
Definition responses_setitem (key v : value) (t : gmap Z value)
  : result (gmap Z value) :=
  match key with
  | VInt n => Ok (<[n := v]> t)
  | VBool b => Ok (<[Z.b2z b := v]> t)
  | VNone | VStr _ => Ok t
  | VList _ | VDict _ => Raise TypeError
  end.

(** [_send_message], up to and including the call [send_json(...)]: the
    frame carries the counter's new value. *)
Definition _send_message_call (name : string) (arguments : value)
    (s : session) : session :=
  let s := set_msg_id (_msg_id s + 1) s in
  let s := trace [VStr ">"; VStr name; arguments] s in
  set_outbox
    (outbox s ++ [VDict [("name", VStr name); ("arguments", arguments);
                         ("id", VInt (_msg_id s))]]) s.

(** [_send_message], once [await self._ws.send_json(...)] is over:
    [return self._msg_id] reads the counter again. *)
Definition _send_message_return (s : session) : Z := _msg_id s.

(** [_receive_message], the top of its [while True]: with a [msg_id]
    that is in the table the response is popped and returned; otherwise
    the coroutine goes on to [await self._ws.receive_json()]. *)
Definition _receive_message_top (msg_id : option Z) (s : session)
  : progress value * session :=
  match msg_id with
  | Some i =>
      match _msg_responses s !! i with
      | Some r => (Returns r, set_msg_responses (delete i (_msg_responses s)) s)
      | None => (Awaits, s)
      end
  | None => (Awaits, s)
  end.

(** [_receive_message], resumed with the frame [msg] that
    [receive_json()] delivered: the rest of the loop body, then the top
    of the loop again. *)
Definition _receive_message_frame (msg_id : option Z) (msg : value)
    (s : session) : progress value * session :=
  let s := trace [VStr "<"; msg] s in
  match getitem msg "name" with
  | Raise e => (Raises e, s)
  | Ok name =>
      if eq_str name "_response_" then
        match key ← getitem msg "id";
              responses_setitem key msg (_msg_responses s)
        with
        | Raise e => (Raises e, s)
        | Ok t => _receive_message_top msg_id (set_msg_responses t s)
        end
      else
        match msg_id with
        | None => (Returns msg, s)
        | Some _ => _receive_message_top msg_id s
        end
  end.

(** [_handle_incoming], the body of its [while True] once
    [_receive_message()] has returned [msg].  The coroutine never
    returns; [Awaits] stands for the end of the body, from where the
    loop goes back to [_receive_message()]. *)
Definition _handle_incoming_body (msg : value) (s : session)
  : progress Empty_set * session :=
  match getitem msg "name" with
  | Raise e => (Raises e, s)
  | Ok name =>
      if eq_str name "connect_complete" then
        (Awaits, set_is_ready true s)
      else if eq_str name "_response_" then
        match v ← getitem msg "arguments";
              key ← getitem msg "id";
              responses_setitem key v (_msg_responses s)
        with
        | Raise e => (Raises e, s)
        | Ok t => (Awaits, set_msg_responses t s)
        end
      else if eq_str name "control_disconnection" then
        match arguments ← getitem msg "arguments"; getitem arguments "code"
        with
        | Raise e => (Raises e, s)
        | Ok code =>
            if eq_int code 4101 then (Raises PaidProgramDisconnection, s)
            else if eq_int code 4512 then (Raises MultipleConnectionError, s)
            else (Awaits, s)
        end
      else if eq_str name "comment" then
        match arguments ← getitem msg "arguments";
              comments ← getitem arguments "comments";
              iter comments
        with
        | Raise e => (Raises e, s)
        | Ok comments =>
            (Awaits,
             fold_left (fun s comment => dropped (Queue_put comment) s)
                       comments s)
        end
      else (Awaits, s)
  end.

(** [_handle_incoming], resumed inside [_receive_message()] with the
    frame [msg]. *)
Definition _handle_incoming_frame (msg : value) (s : session)
  : progress Empty_set * session :=
  match _receive_message_frame None msg s with
  | (Returns msg, s) => _handle_incoming_body msg s
  | (Raises e, s) => (Raises e, s)
  | (Awaits, s) => (Awaits, s)
  end.

(** [ServerDisconnection] and its two subclasses. *)
Definition is_ServerDisconnection (e : exn) : bool :=
  match e with
  | ServerDisconnection
  | MultipleConnectionError
  | PaidProgramDisconnection => true
  | _ => false
  end.

(** [get_hls_information], once [_send_message_and_wait] has returned
    [msg]. *)
Definition get_hls_information_return (msg : value) : result value :=
  getitem msg "arguments".

(** *** The tasks of one session

    [__aenter__] creates the two background tasks; a caller is a task
    running [get_hls_information].  Each task is recorded at the
    [await] where it is suspended.  asyncio runs one task at a time,
    from one suspension point to the next; which task runs next is the
    event loop's choice, here the head of a schedule. *)
Inductive incoming_task : Type :=
| IncomingAwaits                 (* in [receive_json()] *)
| IncomingRaised (e : exn).

Inductive heartbeat_task : Type :=
| HeartbeatLoop                  (* created, or in [asyncio.sleep] *)
| HeartbeatSending.              (* in [send_json(...)] *)

Inductive call_task : Type :=
| CallReady                      (* [get_hls_information()] not yet run *)
| CallSending                    (* in [send_json(...)] *)
| CallAwaits (msg_id : Z)        (* in [receive_json()] *)
| CallReturned (r : value)
| CallRaised (e : exn).

Record world : Type := World {
  ws : session;
  incoming : incoming_task;
  heartbeat : heartbeat_task;
  calls : list call_task
}.

Inductive task : Set :=
| Incoming
| Heartbeat
| Call (i : nat).

(** [__aenter__] on a socket that will deliver [frames], with [n]
    callers about to run: the connection is logged and the two
    background tasks are created. *)
Definition __aenter__ (frames : list value) (n : nat) : world :=
  {| ws := debug [VStr "connected"] (__init__ frames);
     incoming := IncomingAwaits;
     heartbeat := HeartbeatLoop;
     calls := replicate n CallReady |}.

(** Where [_send_message_and_wait] and then [get_hls_information] go
    once [_receive_message(msg_id)] has made its progress. *)
Definition call_after (msg_id : Z) (p : progress value) : call_task :=
  match p with
  | Returns msg =>
      match get_hls_information_return msg with
      | Ok r => CallReturned r
      | Raise e => CallRaised e
      end
  | Raises e => CallRaised e
  | Awaits => CallAwaits msg_id
  end.

Definition call_step (c : call_task) (s : session)
  : option (call_task * session) :=
  match c with
  | CallReady =>
      Some (CallSending,
            _send_message_call "get_hls_information" (VDict []) s)
  | CallSending =>
      let msg_id := _send_message_return s in
      let '(p, s) := _receive_message_top (Some msg_id) s in
      Some (call_after msg_id p, s)
  | CallAwaits msg_id =>
      match inbox s with
      | msg :: rest =>
          let '(p, s) :=
            _receive_message_frame (Some msg_id) msg (set_inbox rest s) in
          Some (call_after msg_id p, s)
      | [] => None
      end
  | CallReturned _ | CallRaised _ => None
  end.

Definition incoming_step (t : incoming_task) (s : session)
  : option (incoming_task * session) :=
  match t, inbox s with
  | IncomingAwaits, msg :: rest =>
      match _handle_incoming_frame msg (set_inbox rest s) with
      | (Raises e, s) => Some (IncomingRaised e, s)
      | (_, s) => Some (IncomingAwaits, s)
      end
  | _, _ => None
  end.

Definition heartbeat_step (t : heartbeat_task) (s : session)
  : heartbeat_task * session :=
  match t with
  | HeartbeatLoop =>
      (HeartbeatSending,
       _send_message_call "heartbeat" (VDict [])
                          (debug [VStr "heartbeat"] s))
  | HeartbeatSending => (HeartbeatLoop, s)
  end.

(** One turn of the event loop: task [t] runs to its next suspension
    point; [None] when [t] cannot run (it has ended, or it waits for a
    frame and the socket has none). *)
Definition step (t : task) (w : world) : option world :=
  match t with
  | Incoming =>
      '(t', s) ← incoming_step (incoming w) (ws w);
      Some (World s t' (heartbeat w) (calls w))
  | Heartbeat =>
      let '(t', s) := heartbeat_step (heartbeat w) (ws w) in
      Some (World s (incoming w) t' (calls w))
  | Call i =>
      c ← calls w !! i;
      '(c', s) ← call_step c (ws w);
      Some (World s (incoming w) (heartbeat w) (<[i := c']> (calls w)))
  end.

Fixpoint run (schedule : list task) (w : world) : option world :=
  match schedule with
  | [] => Some w
  | t :: schedule' => w' ← step t w; run schedule' w'
  end.

End FC2WebSocket.

(** * Vocabulary of the statements *)

(** Descending by [key], and the elements of a list that have key [k], in
    the order the list has them: a sort is stable when it leaves every
    list [with_key key k] as it was. *)
Definition desc {A} (key : A → Z) (a b : A) : Prop := key b ≤ key a.

Definition with_key {A} (key : A → Z) (k : Z) (l : list A) : list A :=
  filter (fun a => key a = k) l.

(** The manifest and the preference of the selection scenario. *)
Definition scenario_manifest : hls_information :=
  {[ "playlists" := [Playlist 50 "a"; Playlist 52 "b"] ]}.

Definition scenario_params : parameters :=
  {| quality := "3Mbps"; latency := "mid";
     outtmpl := outtmpl params; save_chat := false;
     wait_for_live := false; wait_poll_interval := 5 |}.

(** The status-line parser in the words of the specification: tokens are
    the non-empty pieces between separator characters; a token that
    follows a token ending in ['='] is the value of that key; any other
    token containing ['='] is split once, at its first ['='], into key
    and value; the remaining tokens are ignored; parsing starts from the
    defaults.  The separator is a parameter: white space in the
    specification, the space character in [str.split(' ')]. *)
Module Spec.

Definition is_whitespace (c : ascii) : bool :=
  bool_decide (c ∈ [" "; "009"; "010"; "011"; "012"; "013"]%char).

Definition is_space (c : ascii) : bool := bool_decide (c = " "%char).

Fixpoint split_by (is_sep : ascii → bool) (s : string) : list string :=
  match s with
  | EmptyString => [EmptyString]
  | String c s' =>
      if is_sep c then EmptyString :: split_by is_sep s'
      else match split_by is_sep s' with
           | piece :: pieces => String c piece :: pieces
           | [] => [String c EmptyString]
           end
  end.

Definition tokens (is_sep : ascii → bool) (line : string) : list string :=
  filter (fun t => t ≠ "") (split_by is_sep line).

Fixpoint split_once (c : ascii) (s : string) : option (string * string) :=
  match s with
  | EmptyString => None
  | String c' s' =>
      if decide (c' = c) then Some (EmptyString, s')
      else '(k, v) ← split_once c s'; Some (String c' k, v)
  end.

Fixpoint ends_with (c : ascii) (s : string) : bool :=
  match s with
  | EmptyString => false
  | String c' EmptyString => bool_decide (c' = c)
  | String _ s' => ends_with c s'
  end.

Definition follows_key (prev : option string) : bool :=
  from_option (ends_with "=") false prev.

Definition assign (prev : option string) (token : string)
    (stats : gmap string value) : gmap string value :=
  if follows_key prev
  then <[drop_last (default "" prev) := VStr token]> stats
  else match split_once "=" token with
       | Some (k, v) => <[k := VStr v]> stats
       | None => stats
       end.

Fixpoint parse_tokens (prev : option string) (toks : list string)
    (stats : gmap string value) : gmap string value :=
  match toks with
  | [] => stats
  | t :: toks' => parse_tokens (Some t) toks' (assign prev t stats)
  end.

Definition parse_status_line (is_sep : ascii → bool) (line : string)
  : gmap string value :=
  parse_tokens None (tokens is_sep line) default_stats.

(** Number of occurrences of a character, and the lines on which
    "split once at the first ['=']" and [k, v = item.split('=')] agree:
    no token that has to be split holds a second ['=']. *)
Fixpoint count (c : ascii) (s : string) : nat :=
  match s with
  | EmptyString => 0
  | String c' s' => (if decide (c' = c) then 1 else 0) + count c s'
  end%nat.

Fixpoint splits_in_two (prev : option string) (toks : list string) : bool :=
  match toks with
  | [] => true
  | t :: toks' =>
      (follows_key prev || bool_decide (count "=" t ≤ 1)%nat)
      && splits_in_two (Some t) toks'
  end.

End Spec.

(** The status line of the parsing scenario, with the carriage return
    that ends it, and the record the scenario expects. *)
Definition scenario_line : string :=
  "frame=10 fps=25.0 q=-1.0 size=1024kB time=00:00:01.00 bitrate=N/A speed=1.0x"
  +:+ Logger.CR.

(** A status line as ffmpeg prints it: padded fields, and four spaces
    before the carriage return. *)
Definition ffmpeg_line : string :=
  "frame=  100 fps= 25 q=-1.0 size=    1024kB time=00:00:04.00 bitrate=2097.2kbits/s speed=1.0x    "
  +:+ Logger.CR.

Definition scenario_status : gmap string value :=
  {[ "frame" := VStr "10";
     "fps" := VStr "25.0";
     "q" := VStr "-1.0";
     "size" := VStr "1024kB";
     "time" := VStr "00:00:01.00";
     "bitrate" := VStr "N/A";
     "speed" := VStr "1.0x" ]}.

(** Frames of the control channel: a request as [_send_message] builds
    it, a [_response_] to the request [id], and the two pushes of the
    scenarios. *)
Definition request (name : string) (id : Z) : value :=
  VDict [("name", VStr name); ("arguments", VDict []); ("id", VInt id)].

Definition response (id : Z) (arguments : value) : value :=
  VDict [("name", VStr "_response_"); ("arguments", arguments);
         ("id", VInt id)].

Definition control_disconnection (code : Z) : value :=
  VDict [("name", VStr "control_disconnection");
         ("arguments", VDict [("code", VInt code)]); ("id", VInt 0)].

(** What [self._logger.trace('<', msg)] prints when it prints: the one
    call [print('\033[35m[ws]', '<', msg, '\033[0m')]; and the terminal
    on which a received frame is shown at log level TRACE alone. *)
Definition trace_line (msg : value) : Logger.print_call :=
  Logger.Print [VStr (Logger.ESC +:+ "[35m[ws]"); VStr "<"; msg;
                VStr (Logger.ESC +:+ "[0m")] Logger.LF.

Definition shown_at_trace (msg : value) (c : Logger.console)
  : Logger.console :=
  if decide (Logger.LOGLEVEL_TRACE ≤ Logger.loglevel c)
  then Logger.Console (Logger.loglevel c) (Logger.stdout c ++ [trace_line msg])
  else c.

(** A frame is logged between two states of a session when the later
    terminal has, after what the earlier one had, a printed line that
    shows the frame. *)
Definition logged (msg : value) (s s' : FC2WebSocket.session) : Prop :=
  ∃ shown, Logger.stdout (FC2WebSocket.console s')
           = Logger.stdout (FC2WebSocket.console s) ++ shown
           ∧ ∃ call, call ∈ shown ∧ msg ∈ Logger.objects call.

Definition comment_push (comments : list value) : value :=
  VDict [("name", VStr "comment");
         ("arguments", VDict [("comments", VList comments)]);
         ("id", VInt 0)].

(** The payloads the server sends back in the call scenarios. *)
Definition reply_to_1 : value := VDict [("reply_to", VInt 1)].
Definition reply_to_2 : value := VDict [("reply_to", VInt 2)].

(** The states of the callers, the frames sent, and the queue, after a
    schedule. *)
Definition calls_after (schedule : list FC2WebSocket.task)
    (w : FC2WebSocket.world) : option (list FC2WebSocket.call_task) :=
  FC2WebSocket.calls <$> FC2WebSocket.run schedule w.

Definition outbox_after (schedule : list FC2WebSocket.task)
    (w : FC2WebSocket.world) : option (list value) :=
  (fun w => FC2WebSocket.outbox (FC2WebSocket.ws w))
    <$> FC2WebSocket.run schedule w.

Definition comments_after (schedule : list FC2WebSocket.task)
    (w : FC2WebSocket.world) : option (list value) :=
  (fun w => FC2WebSocket.comments (FC2WebSocket.ws w))
    <$> FC2WebSocket.run schedule w.

(** [v] is a [_response_] frame whose id is the integer [i]; and the
    state of a session that started with [frames] on its socket: part of
    them taken, the rest still to come, and every entry of the response
    table a taken [_response_] frame filed under its own id. *)
Definition response_to (i : Z) (v : value) : Prop :=
  ∃ name key,
    getitem v "name" = Ok name ∧ eq_str name "_response_" = true
    ∧ getitem v "id" = Ok key ∧ eq_int key i = true.

Definition filed_by_id (frames : list value) (s : FC2WebSocket.session)
  : Prop :=
  ∃ taken,
    frames = taken ++ FC2WebSocket.inbox s
    ∧ ∀ i v, FC2WebSocket._msg_responses s !! i = Some v →
             v ∈ taken ∧ response_to i v.

(** * The rest of the program *)

(** ** More built-ins *)

Module Text.

(** [s.replace(old, new)] for one-character [old] and [new]. *)
Fixpoint replace (old new : ascii) (s : string) : string :=
  match s with
  | EmptyString => EmptyString
  | String c s' =>
      String (if decide (c = old) then new else c) (replace old new s')
  end.

(** [s.startswith(prefix)]. *)
Fixpoint startswith (prefix s : string) : bool :=
  match prefix, s with
  | EmptyString, _ => true
  | String p prefix', String c s' =>
      if decide (c = p) then startswith prefix' s' else false
  | String _ _, EmptyString => false
  end.

(** [s.split(sep)] for a separator of any length.  The occurrences of
    [sep] are found from the left and do not overlap; [skip] counts the
    characters of a found occurrence that are still to be passed over.
    An empty separator is a [ValueError]. *)
Fixpoint split_from (sep : string) (skip : nat) (s : string) : list string :=
  match s with
  | EmptyString => [EmptyString]
  | String c s' =>
      match skip with
      | S skip' => split_from sep skip' s'
      | O =>
          if startswith sep s
          then EmptyString :: split_from sep (String.length sep - 1) s'
          else match split_from sep 0 s' with
               | piece :: pieces => String c piece :: pieces
               | [] => [String c EmptyString]
               end
      end
  end.

Definition split_str (sep s : string) : result (list string) :=
  if decide (sep = "") then Raise ValueError else Ok (split_from sep 0 s).

(** [xs[i]] for any integer [i]: a negative index counts from the end. *)
Definition getitem_int {A} (xs : list A) (i : Z) : result A :=
  let n := Z.of_nat (length xs) in
  if decide (0 ≤ i < n) then list_getitem xs (Z.to_nat i)
  else if decide (- n ≤ i < 0) then list_getitem xs (Z.to_nat (n + i))
  else Raise IndexError.

(** [len(v)]: defined on strings, lists and dicts.  For a string this is
    the number of bytes, which is zero exactly when the number of
    characters is. *)
Definition len (v : value) : result Z :=
  match v with
  | VStr s => Ok (Z.of_nat (String.length s))
  | VList xs => Ok (Z.of_nat (length xs))
  | VDict items => Ok (Z.of_nat (length items))
  | VNone | VBool _ | VInt _ => Raise TypeError
  end.

End Text.

(** ** Module-level helpers *)

Module Helpers.

(** The nine characters [sanitize_filename] loops over, in the order of
    its literal: less-than, greater-than, colon, double quote (034),
    slash, backslash (092), vertical bar, question mark, star. *)
Definition unsafe_chars : list ascii :=
  ["<"; ">"; ":"; "034"; "/"; "092"; "|"; "?"; "*"]%char.

(** [sanitize_filename], on the text [str(fname)] of its argument. *)
Definition sanitize_filename (fname : string) : string :=
  fold_left (fun fname c => Text.replace c "_" fname) unsafe_chars fname.

End Helpers.

(** ** class Logger: the other methods *)

Module LoggerObject.

(** A [Logger] instance. *)
Record logger : Type := LoggerOf { _module : string; _loadspin_n : Z }.

Definition __init__ (module : string) : logger :=
  {| _module := module; _loadspin_n := 0 |}.

Definition info (self : logger) (args : list value) (c : Logger.console)
  : Logger.console :=
  if decide (Logger.LOGLEVEL_INFO ≤ Logger.loglevel c)
  then Logger._print (_module self) "" args Logger.LF c else c.

Definition warn (self : logger) (args : list value) (c : Logger.console)
  : Logger.console :=
  if decide (Logger.LOGLEVEL_WARN ≤ Logger.loglevel c)
  then Logger._print (_module self) (Logger.ESC +:+ "[33m") args Logger.LF c
  else c.

Definition error (self : logger) (args : list value) (c : Logger.console)
  : Logger.console :=
  if decide (Logger.LOGLEVEL_ERROR ≤ Logger.loglevel c)
  then Logger._print (_module self) (Logger.ESC +:+ "[31m") args Logger.LF c
  else c.

(** The eight characters of the spinner, U+2846, U+2807, U+280B, U+2819,
    U+2838, U+28B0, U+28E0 and U+28C4, each as the three bytes of its
    UTF-8 encoding; [len(chars)] is the length of this list. *)
Definition chars : list string :=
  [ String "226" (String "161" (String "134" ""));
    String "226" (String "160" (String "135" ""));
    String "226" (String "160" (String "139" ""));
    String "226" (String "160" (String "153" ""));
    String "226" (String "160" (String "184" ""));
    String "226" (String "162" (String "176" ""));
    String "226" (String "163" (String "160" ""));
    String "226" (String "163" (String "132" "")) ].

(** [infospin]: the counter is stored before [chars] is indexed, so it is
    returned also when the indexing raises. *)
Definition infospin (self : logger) (args : list value) (c : Logger.console)
  : logger * result Logger.console :=
  let n := (_loadspin_n self + 1) `mod` Z.of_nat (length chars) in
  let self := {| _module := _module self; _loadspin_n := n |} in
  (self,
   ch ← Text.getitem_int chars n;
   Ok (Logger.infol (_module self) (VStr ch :: args) c)).

End LoggerObject.

(** ** class FC2LiveStream *)

Module FC2LiveStream.

(** What a coroutine of this class can raise: a built-in exception or the
    class's own [NotOnlineException]. *)
Inductive error : Set :=
| Builtin (e : exn)
| NotOnlineException.

(** A coroutine that posts over HTTP returns, raises, or is still waiting
    for the reply. *)
Inductive outcome (A : Type) : Type :=
| Done (a : A)
| Failed (e : error)
| Pending.
Global Arguments Done {A} a.
Global Arguments Failed {A} e.
Global Arguments Pending {A}.

(** One [self._session.post(url, data=data)]. *)
Record request : Type := Post { post_url : string; post_data : list (string * value) }.

(** The object and what it acts on: the terminal, the HTTP session (the
    outcome of each exchange still to come, in order: the decoded body of
    the reply, or the exception raised by the post or by [resp.json]; and
    the posts made so far), and the seconds slept in [asyncio.sleep]. *)
Record stream : Type := Stream {
  channel_id : value;
  _meta : value;
  _logger : LoggerObject.logger;
  console : Logger.console;
  replies : list (result value);
  posted : list request;
  slept : Z
}.

Definition __init__ (channel_id : value) (replies : list (result value))
  : stream :=
  {| channel_id := channel_id;
     _meta := VNone;
     _logger := LoggerObject.__init__ "live";
     console := Logger.initial;
     replies := replies;
     posted := [];
     slept := 0 |}.

Definition set_meta (m : value) (st : stream) : stream :=
  Stream (channel_id st) m (_logger st) (console st) (replies st)
         (posted st) (slept st).
Definition set_logger (l : LoggerObject.logger) (st : stream) : stream :=
  Stream (channel_id st) (_meta st) l (console st) (replies st)
         (posted st) (slept st).
Definition set_console (c : Logger.console) (st : stream) : stream :=
  Stream (channel_id st) (_meta st) (_logger st) c (replies st)
         (posted st) (slept st).
Definition set_replies (r : list (result value)) (st : stream) : stream :=
  Stream (channel_id st) (_meta st) (_logger st) (console st) r
         (posted st) (slept st).
Definition set_posted (p : list request) (st : stream) : stream :=
  Stream (channel_id st) (_meta st) (_logger st) (console st) (replies st)
         p (slept st).
Definition set_slept (n : Z) (st : stream) : stream :=
  Stream (channel_id st) (_meta st) (_logger st) (console st) (replies st)
         (posted st) n.

(** [x is not None]. *)
Definition is_not_None (v : value) : bool :=
  match v with VNone => false | _ => true end.

(** [async with self._session.post(url, data=data) as resp] followed by
    [await resp.json(...)]: the post is recorded and the next exchange of
    the session gives its outcome. *)
Definition post (url : string) (data : list (string * value)) (st : stream)
  : outcome value * stream :=
  let st := set_posted (posted st ++ [Post url data]) st in
  match replies st with
  | [] => (Pending, st)
  | Ok body :: rest => (Done body, set_replies rest st)
  | Raise e :: rest => (Failed (Builtin e), set_replies rest st)
  end.

Definition memberApi : string := "https://live.fc2.com/api/memberApi.php".
Definition getControlServer : string :=
  "https://live.fc2.com/api/getControlServer.php".

Definition get_meta (force_refetch : bool) (st : stream)
  : outcome value * stream :=
  if is_not_None (_meta st) && negb force_refetch then (Done (_meta st), st)
  else
    let url := memberApi in
    let data := [ ("channel", VInt 1); ("profile", VInt 1); ("user", VInt 1);
                  ("streamid", channel_id st) ] in
    match post url data st with
    | (Done data, st) =>
        match getitem data "data" with
        | Ok d => (Done d, set_meta d st)
        | Raise e => (Failed (Builtin e), st)
        end
    | (Failed e, st) => (Failed e, st)
    | (Pending, st) => (Pending, st)
    end.

Definition is_online (st : stream) : outcome bool * stream :=
  match get_meta true st with
  | (Done meta, st) =>
      match channel_data ← getitem meta "channel_data";
            version ← getitem channel_data "version";
            Text.len version
      with
      | Ok n => (Done (bool_decide (0 < n)), st)
      | Raise e => (Failed (Builtin e), st)
      end
  | (Failed e, st) => (Failed e, st)
  | (Pending, st) => (Pending, st)
  end.

(** [for _ in range(interval)]: [infospin] then one second of sleep.  The
    interval is an integer here ([range] refuses a float), and a
    non-positive one gives no turn. *)
Fixpoint spin_and_sleep (turns : nat) (st : stream) : result stream :=
  match turns with
  | O => Ok st
  | S turns' =>
      let '(l, c) := LoggerObject.infospin (_logger st)
                       [VStr "Waiting for stream"] (console st) in
      let st := set_logger l st in
      c ← c;
      spin_and_sleep turns' (set_slept (slept st + 1) (set_console c st))
  end.

(** [wait_for_online]: every turn of the [while] posts once, so once the
    session's outcomes are used up the coroutine is left waiting:
    [polls] turns are enough when it is more than their number. *)
Fixpoint wait_for_online_loop (polls : nat) (interval : Z) (st : stream)
  : outcome unit * stream :=
  match polls with
  | O => (Pending, st)
  | S polls' =>
      match is_online st with
      | (Done true, st) => (Done tt, st)
      | (Done false, st) =>
          match spin_and_sleep (Z.to_nat interval) st with
          | Ok st => wait_for_online_loop polls' interval st
          | Raise e => (Failed (Builtin e), st)
          end
      | (Failed e, st) => (Failed e, st)
      | (Pending, st) => (Pending, st)
      end
  end.

Definition wait_for_online (interval : Z) (st : stream)
  : outcome unit * stream :=
  wait_for_online_loop (S (length (replies st))) interval st.

(** [self.is_online], not called, is the bound method: an object that
    counts as true in a condition. *)
Definition is_online_method : bool := true.

Section Str.
(** Python's [str()], which the [%(...)s] conversions apply. *)
Variable str_ : value → string.

(** ['%(url)s?control_token=%(control_token)s' % info]: the two keys are
    looked up in that order. *)
Definition control_server_url (info : value) : result string :=
  url ← getitem info "url";
  control_token ← getitem info "control_token";
  Ok (str_ url +:+ "?control_token=" +:+ str_ control_token).

Definition get_websocket_url (st : stream) : outcome string * stream :=
  if negb is_online_method then (Failed NotOnlineException, st)
  else
    match get_meta false st with
    | (Done meta, st) =>
        match channel_data ← getitem meta "channel_data";
              getitem channel_data "version"
        with
        | Raise e => (Failed (Builtin e), st)
        | Ok version =>
            let url := getControlServer in
            let data :=
              [ ("channel_id", channel_id st);
                ("mode", VStr "play");
                ("orz", VStr "");
                ("channel_version", version);
                ("client_version", VStr ("2.1.0" +:+ Logger.LF +:+ "+[1]"));
                ("client_type", VStr "pc");
                ("client_app", VStr "browser_hls");
                ("ipv6", VStr "") ] in
            match post url data st with
            | (Done info, st) =>
                match control_server_url info with
                | Ok ws_url => (Done ws_url, st)
                | Raise e => (Failed (Builtin e), st)
                end
            | (Failed e, st) => (Failed e, st)
            | (Pending, st) => (Pending, st)
            end
        end
    | (Failed e, st) => (Failed e, st)
    | (Pending, st) => (Pending, st)
    end.

(** [FC2LiveDL.download], from its first line to the line before the
    [async with FC2WebSocket(...)]: the result is the websocket url. *)
Definition download_to_websocket_url (self : parameters) (st : stream)
  : outcome string * stream :=
  let fc2 := LoggerObject.__init__ "fc2" in
  let online_or_waited :=
    match is_online st with
    | (Done true, st) => (Done tt, st)
    | (Done false, st) =>
        if negb (wait_for_live self) then (Failed NotOnlineException, st)
        else wait_for_online (wait_poll_interval self) st
    | (Failed e, st) => (Failed e, st)
    | (Pending, st) => (Pending, st)
    end in
  match online_or_waited with
  | (Done _, st) =>
      let st := set_console
                  (LoggerObject.info fc2 [VStr "Stream is online"] (console st))
                  st in
      match get_meta false st with
      | (Done meta, st) =>
          match get_websocket_url st with
          | (Done ws_url, st) =>
              (Done ws_url,
               set_console
                 (LoggerObject.info fc2 [VStr "Found websocket url"]
                                    (console st)) st)
          | other => other
          end
      | (Failed e, st) => (Failed e, st)
      | (Pending, st) => (Pending, st)
      end
  | (Failed e, st) => (Failed e, st)
  | (Pending, st) => (Pending, st)
  end.
End Str.

End FC2LiveStream.

(** ** FC2LiveDL: the recording loop and the output file name *)

Module Downloader.

(** [while await ffmpeg.print_status(): pass] over the outcomes of the
    successive reads of the recorder's output.  The result tells whether
    the loop was left ([false]: all the given reads succeeded and the
    next one is awaited), the terminal, and the reads not consumed. *)
Fixpoint recording_loop (reads : list (result string)) (c : Logger.console)
  : bool * Logger.console * list (result string) :=
  match reads with
  | [] => (false, c, [])
  | read :: reads' =>
      match print_status read c with
      | (true, c) => recording_loop reads' c
      | (false, c) => (true, c, reads')
      end
  end.

Section Builtins.
(** Python's [str()], the [%] operator of a format string on a mapping,
    and the text [datetime.now().strftime('%F_%H%M%S')] gives at the
    moment of the call. *)
Variable str_ : value → string.
Variable percent : string → gmap string value → result string.
Variable now : string.

(** [finfo] as [_format_outtmpl] has it when it formats. *)
Definition _format_outtmpl_finfo (meta : value)
    (overrides : gmap string value) : result (gmap string value) :=
  let finfo : gmap string value :=
    {[ "channel_id" := VStr "";
       "channel_name" := VStr "";
       "date" := VStr now;
       "title" := VStr "";
       "ext" := VStr "" ]} in
  finfo ←
    (if FC2LiveStream.is_not_None meta then
       channel_data ← getitem meta "channel_data";
       channelid ← getitem channel_data "channelid";
       let finfo :=
         <["channel_id" := VStr (Helpers.sanitize_filename (str_ channelid))]>
           finfo in
       profile_data ← getitem meta "profile_data";
       name ← getitem profile_data "name";
       let finfo :=
         <["channel_name" := VStr (Helpers.sanitize_filename (str_ name))]>
           finfo in
       channel_data ← getitem meta "channel_data";
       title ← getitem channel_data "title";
       Ok (<["title" := VStr (Helpers.sanitize_filename (str_ title))]> finfo)
     else Ok finfo);
  Ok (overrides ∪ finfo).

Definition _format_outtmpl (self : parameters) (meta : value)
    (overrides : gmap string value) : result string :=
  finfo ← _format_outtmpl_finfo meta overrides;
  formatted ← percent (outtmpl self) finfo;
  Ok (if Text.startswith "-" formatted then "_" +:+ formatted
      else formatted).
End Builtins.

End Downloader.

(** ** class SmartFormatter and main *)

Module Cli.

(** [SmartFormatter.flatten]: a string is kept, a list is flattened in
    place, anything else is passed over.  [flatten_element] is one turn
    of the loop. *)
Fixpoint flatten_element (element : value) : list string :=
  match element with
  | VStr s => [s]
  | VList input_array => concat (map flatten_element input_array)
  | _ => []
  end.

Definition flatten (input_array : list value) : list string :=
  concat (map flatten_element input_array).

(** [args.url.split('https://live.fc2.com')[1].split('/')[1]] of [main]. *)
Definition channel_id_of_url (url : string) : result string :=
  pieces ← Text.split_str "https://live.fc2.com" url;
  after ← list_getitem pieces 1;
  pieces ← Text.split_str "/" after;
  list_getitem pieces 1.

End Cli.

(** ** Vocabulary of the further statements *)

(** No unsafe character occurs in a text. *)
Definition safe_text (s : string) : Prop :=
  Forall (fun c => contains c s = false) Helpers.unsafe_chars.

(** What [sanitize_filename] does to one character. *)
Definition sanitize_char (c : ascii) : ascii :=
  if decide (c ∈ Helpers.unsafe_chars) then "_"%char else c.

Fixpoint map_chars (f : ascii → ascii) (s : string) : string :=
  match s with
  | EmptyString => EmptyString
  | String c s' => String (f c) (map_chars f s')
  end.

(** The [id] fields of a list of frames. *)
Definition frame_ids (frames : list value) : list (result value) :=
  (fun frame => getitem frame "id") <$> frames.

(** A stretch of code that sends nothing, and the state in which the
    frames sent so far carry the ids 1, 2, ... up to the counter. *)
Definition sends_nothing (s s' : FC2WebSocket.session) : Prop :=
  FC2WebSocket._msg_id s' = FC2WebSocket._msg_id s
  ∧ FC2WebSocket.outbox s' = FC2WebSocket.outbox s.

Definition counts_up (s : FC2WebSocket.session) : Prop :=
  0 ≤ FC2WebSocket._msg_id s
  ∧ frame_ids (FC2WebSocket.outbox s)
    = (fun i => Ok (VInt i)) <$> seqZ 1 (FC2WebSocket._msg_id s).

(** Every frame still on the socket is one of [frames], and the session
    is marked ready only if one of [frames] is named [connect_complete]. *)
Definition ready_by_frame (frames : list value) (s : FC2WebSocket.session)
  : Prop :=
  (∀ msg, msg ∈ FC2WebSocket.inbox s → msg ∈ frames)
  ∧ (FC2WebSocket._is_ready s = true →
     ∃ msg name, msg ∈ frames ∧ getitem msg "name" = Ok name
                 ∧ eq_str name "connect_complete" = true).

(** A frame the server pushes: a dict with a name other than
    [_response_]. *)
Definition is_push (frame : value) : Prop :=
  ∃ name, getitem frame "name" = Ok name ∧ eq_str name "_response_" = false.

(** A member-API reply for a channel whose version is [version]. *)
Definition member_reply (version : string) : result value :=
  Ok (VDict [("data", VDict [("channel_data",
                              VDict [("version", VStr version)])])]).


(** The request [get_meta] posts for a channel, and the one
    [get_websocket_url] posts for a channel and its version. *)
Definition member_request (channel_id : value) : FC2LiveStream.request :=
  FC2LiveStream.Post FC2LiveStream.memberApi
    [ ("channel", VInt 1); ("profile", VInt 1); ("user", VInt 1);
      ("streamid", channel_id) ].


(** The [data] field of a member-API reply for a channel whose version
    is [version]. *)
Definition member_data (version : string) : value :=
  VDict [("channel_data", VDict [("version", VStr version)])].

(** A [data] field that tells of a channel on the air: what
    [len(meta['channel_data']['version']) > 0] tests. *)
Definition meta_online (meta : value) : Prop :=
  ∃ channel_data ver n,
    getitem meta "channel_data" = Ok channel_data
    ∧ getitem channel_data "version" = Ok ver
    ∧ Text.len ver = Ok n ∧ 0 < n.


(** The text [sep] occurs somewhere in [s]. *)
Fixpoint occurs (sep s : string) : bool :=
  Text.startswith sep s
  || match s with
     | EmptyString => false
     | String _ s' => occurs sep s'
     end.

(** The text [main] splits the url at. *)
Definition fc2_host : string := "https://live.fc2.com".

(** A stand-in for [str()] that is right on strings. *)
Definition str_of_text (v : value) : string :=
  match v with VStr s => s | _ => "" end.

(** * Properties *)

(** ** The built-ins on small inputs *)

Example split_keeps_empty_pieces :
  split " " "a  b " = ["a"; ""; "b"; ""] ∧ split "=" "" = [""]
  ∧ split "=" "q=" = ["q"; ""] ∧ split "=" "a=b=c" = ["a"; "b"; "c"].
Proof. done. Qed.

Example sorted_reverse_keeps_ties :
  sorted_reverse key_map
    [Playlist 90 "x"; Playlist 0 "y"; Playlist 91 "z"; Playlist 1 "w";
     Playlist 50 "a"]
  = [Playlist 50 "a"; Playlist 91 "z"; Playlist 1 "w"; Playlist 90 "x";
     Playlist 0 "y"].
Proof. done. Qed.

Example format_mode_outside_code_book :
  _format_mode 92 = Ok ("sound", "mid") ∧ _format_mode 60 = Raise ValueError
  ∧ _format_mode 53 = Raise ValueError.
Proof. done. Qed.

(** ** The contract of [sorted(..., reverse=True, key=...)] *)

Section SortedReverse.
Context {A : Type} (key : A → Z).

Lemma insert_desc_perm x l : insert_desc key x l ≡ₚ x :: l.
Proof.
  induction l as [|y l IH]; simpl; [done|].
  case_decide; [done|]. rewrite IH. apply Permutation_swap.
Qed.

Lemma sorted_reverse_perm l : sorted_reverse key l ≡ₚ l.
Proof.
  induction l as [|x l IH]; simpl; [done|].
  rewrite insert_desc_perm. by f_equiv.
Qed.

Lemma insert_desc_sorted x l :
  StronglySorted (desc key) l →
  StronglySorted (desc key) (insert_desc key x l).
Proof.
  induction 1 as [|y l Hl IH Hy]; simpl.
  - repeat constructor.
  - case_decide as Hle.
    + constructor; [by constructor|].
      constructor; [done|].
      eapply Forall_impl; [exact Hy|]. unfold desc. intros; lia.
    + constructor; [done|].
      rewrite insert_desc_perm. constructor; [|done]. unfold desc. lia.
Qed.

Lemma sorted_reverse_sorted l :
  StronglySorted (desc key) (sorted_reverse key l).
Proof.
  induction l; simpl; [constructor|]. by apply insert_desc_sorted.
Qed.

Lemma with_key_insert_desc k x l :
  with_key key k (insert_desc key x l) = with_key key k (x :: l).
Proof.
  unfold with_key.
  induction l as [|y l IH]; simpl; [done|].
  case_decide as Hle; [done|].
  rewrite filter_cons, IH, !filter_cons.
  repeat case_decide; try done; lia.
Qed.

Lemma sorted_reverse_stable k l :
  with_key key k (sorted_reverse key l) = with_key key k l.
Proof.
  induction l as [|x l IH]; simpl; [done|].
  rewrite with_key_insert_desc. unfold with_key in *.
  by rewrite !filter_cons, IH.
Qed.

Lemma with_key_nil_inv l : (∀ k, with_key key k l = []) → l = [].
Proof.
  destruct l as [|x l]; [done|]. intros H. specialize (H (key x)).
  unfold with_key in H. rewrite filter_cons in H. by case_decide.
Qed.

Lemma with_key_elem k l x : x ∈ with_key key k l ↔ x ∈ l ∧ key x = k.
Proof. unfold with_key. rewrite list_elem_of_filter. tauto. Qed.

(** Two descending lists with the same elements per key, in the same
    order per key, are the same list. *)
Lemma desc_stable_eq l1 l2 :
  StronglySorted (desc key) l1 → StronglySorted (desc key) l2 →
  (∀ k, with_key key k l1 = with_key key k l2) → l1 = l2.
Proof.
  intros H1. revert l2.
  induction H1 as [|x l1 Hl1 IH Hx]; intros l2 H2 Heq.
  - symmetry. apply with_key_nil_inv. intros k. by rewrite <- Heq.
  - destruct H2 as [|y l2 Hl2 Hy].
    { apply with_key_nil_inv. intros k. by rewrite Heq. }
    assert (key x = key y) as Hk.
    { assert (x ∈ y :: l2) as Hxin.
      { eapply (with_key_elem (key x)). rewrite <- Heq.
        apply with_key_elem. split; [left|done]. }
      assert (y ∈ x :: l1) as Hyin.
      { eapply (with_key_elem (key y)). rewrite Heq.
        apply with_key_elem. split; [left|done]. }
      rewrite Forall_forall in Hx, Hy. unfold desc in *.
      apply elem_of_cons in Hxin as [->|Hxin]; [done|].
      apply elem_of_cons in Hyin as [->|Hyin]; [done|].
      specialize (Hx _ Hyin). specialize (Hy _ Hxin). lia. }
    pose proof (Heq (key x)) as Hhd. unfold with_key in Hhd.
    rewrite !filter_cons in Hhd.
    rewrite decide_True in Hhd by done.
    rewrite decide_True in Hhd by done.
    injection Hhd as -> Htl. f_equal. apply IH; [done|].
    intros k. destruct (decide (k = key y)) as [->|Hne]; [done|].
    specialize (Heq k). unfold with_key in *.
    rewrite !filter_cons in Heq.
    rewrite decide_False in Heq by congruence.
    rewrite decide_False in Heq by congruence. done.
Qed.

(** Whatever list meets the contract of the stable descending sort of
    [l] is the list [sorted_reverse] computes: the result of
    [sorted] does not depend on how it is computed. *)
Lemma stable_sort_unique l l' :
  StronglySorted (desc key) l' →
  (∀ k, with_key key k l' = with_key key k l) →
  l' = sorted_reverse key l.
Proof.
  intros Hs Hst. apply desc_stable_eq; [done|apply sorted_reverse_sorted|].
  intros k. by rewrite sorted_reverse_stable.
Qed.
End SortedReverse.

(** ** The variant selector *)

Section VariantSelector.
Implicit Types (hls_info : hls_information) (l : list playlist).

(** C8.  Merging returns the lists of the keys [playlists],
    [playlists_high_latency] and [playlists_middle_latency] that the
    manifest has, concatenated in that order with each list left as it
    is; an absent key contributes nothing, so a manifest with none of
    the three keys merges to the empty list. *)
Theorem merge_playlists_concat hls_info :
  _merge_playlists hls_info
  = default [] (hls_info !! "playlists")
      ++ default [] (hls_info !! "playlists_high_latency")
      ++ default [] (hls_info !! "playlists_middle_latency")
  ∧ _merge_playlists ∅ = [].
Proof.
  split; [|done]. unfold _merge_playlists. simpl.
  destruct (hls_info !! "playlists"),
           (hls_info !! "playlists_high_latency"),
           (hls_info !! "playlists_middle_latency"); simpl;
    by rewrite ?app_nil_r, <- ?app_assoc.
Qed.

(** C7.  [_sort_playlists] rearranges the merged variants (same
    elements), in descending order of the rank key, and stably: for
    every rank [k], the variants of rank [k] come out in the order
    merging produced them.  The rank key of a variant is [mode - 90]
    when [mode >= 90] and [mode] otherwise. *)
Theorem sort_playlists_stable_descending l :
  _sort_playlists l ≡ₚ l
  ∧ StronglySorted (desc key_map) (_sort_playlists l)
  ∧ (∀ k, with_key key_map k (_sort_playlists l) = with_key key_map k l)
  ∧ (∀ v, key_map v = if decide (90 ≤ mode v) then mode v - 90 else mode v).
Proof.
  unfold _sort_playlists. split_and!.
  - apply sorted_reverse_perm.
  - apply sorted_reverse_sorted.
  - intros k. apply sorted_reverse_stable.
  - intros v. unfold key_map. repeat case_decide; lia.
Qed.

Lemma last_match_fold l (m : option Z) (acc : option playlist) :
  fold_left (fun playlist p =>
               if decide (Some (mode p) = m) then Some p else playlist)
            l acc
  = match last (filter (fun p => Some (mode p) = m) l) with
    | Some p => Some p
    | None => acc
    end.
Proof.
  revert acc. induction l as [|p l IH]; intros acc; simpl; [done|].
  rewrite IH, filter_cons. case_decide; [|done].
  rewrite last_cons. by destruct (last _).
Qed.

(** C2.  On a non-empty sequence, whatever its order, selection returns
    the last element whose mode equals the desired mode, and the first
    element of the sequence when no element has that mode.  For the
    manifest [{playlists: [{mode:50,url:"a"},{mode:52,url:"b"}]}] with
    quality 3Mbps and latency mid the desired mode is 52 and the
    selected variant is [{mode:52,url:"b"}], whose url is returned. *)
Theorem get_playlist_or_best_last_match (p0 : playlist) l (desired : Z) :
  _get_playlist_or_best (p0 :: l) (Some desired)
  = Ok (default p0
          (last (filter (fun p => mode p = desired) (p0 :: l))))
  ∧ _get_mode scenario_params = Ok 52
  ∧ _get_playlist_or_best
      (_sort_playlists (_merge_playlists scenario_manifest)) (Some 52)
    = Ok (Playlist 52 "b")
  ∧ _get_hls_url scenario_params scenario_manifest = Ok "b".
Proof.
  split_and!; [|done..].
  unfold _get_playlist_or_best. rewrite last_match_fold.
  assert (filter (fun p => Some (mode p) = Some desired) (p0 :: l)
          = filter (fun p => mode p = desired) (p0 :: l)) as ->.
  { apply list_filter_iff. intros p. split; congruence. }
  by destruct (last _).
Qed.

Lemma get_playlist_or_best_nil (m : option Z) :
  _get_playlist_or_best [] m = Raise IndexError.
Proof. done. Qed.

Lemma get_playlist_or_best_elem l (m : option Z) :
  l ≠ [] → ∃ p, p ∈ l ∧ _get_playlist_or_best l m = Ok p.
Proof.
  intros Hne. unfold _get_playlist_or_best. rewrite last_match_fold.
  destruct (last _) as [p|] eqn:Hlast.
  - exists p. split; [|done].
    apply last_Some_elem_of in Hlast.
    by apply list_elem_of_filter in Hlast as [_ ?].
  - destruct l as [|p l]; [done|]. exists p. split; [left|done].
Qed.

(** C3.  Selection over the sorted merged variants raises the error of
    the empty manifest (the [IndexError] of [sorted_playlists[0]], the
    only error selection can raise) if and only if the merged set is
    empty; on a non-empty merged set it returns one of the merged
    variants.  The same holds of [_get_hls_url] for a preference taken
    from the two code books. *)
Theorem selection_fails_iff_empty (self : parameters) hls_info
    (desired : option Z) :
  let merged := _merge_playlists hls_info in
  let chosen := _get_playlist_or_best (_sort_playlists merged) desired in
  (chosen = Raise IndexError ↔ merged = [])
  ∧ (merged ≠ [] → ∃ p, p ∈ merged ∧ chosen = Ok p)
  ∧ (is_ok (_get_mode self) →
     (_get_hls_url self hls_info = Raise IndexError ↔ merged = [])
     ∧ (merged ≠ [] →
        ∃ p, p ∈ merged ∧ _get_hls_url self hls_info = Ok (url p))).
Proof.
  intros merged chosen.
  assert (merged ≠ [] → ∀ m, ∃ p,
            p ∈ merged
            ∧ _get_playlist_or_best (_sort_playlists merged) m = Ok p)
    as Hsome.
  { intros Hne m.
    destruct (get_playlist_or_best_elem (_sort_playlists merged) m)
      as (p & Hp & Hsel).
    - intros Hnil. apply Hne. apply Permutation_nil_r.
      rewrite <- Hnil. symmetry. apply sorted_reverse_perm.
    - exists p. split; [|done].
      by rewrite <- (sorted_reverse_perm key_map merged). }
  split_and!.
  - split.
    + intros Hraise. destruct (decide (merged = [])) as [|Hne]; [done|].
      destruct (Hsome Hne desired) as (p & _ & Hsel).
      subst chosen. congruence.
    + subst chosen. by intros ->.
  - intros Hne. apply Hsome, Hne.
  - unfold _get_hls_url. destruct (_get_mode self) as [m|e]; [|done].
    intros _. simpl. fold merged. split.
    + split.
      * intros Hraise. destruct (decide (merged = [])) as [|Hne]; [done|].
        destruct (Hsome Hne (Some m)) as (p & _ & Hsel).
        by rewrite Hsel in Hraise.
      * by intros ->.
    + intros Hne. destruct (Hsome Hne (Some m)) as (p & Hp & Hsel).
      exists p. by rewrite Hsel.
Qed.

Lemma selection_fails_iff_empty_witness :
  ∃ p, p ∈ _merge_playlists scenario_manifest
       ∧ _get_hls_url scenario_params scenario_manifest = Ok (url p).
Proof.
  apply (selection_fails_iff_empty scenario_params scenario_manifest None);
    [done | by vm_compute].
Defined.

(** C9.  [_format_mode] decodes what [_get_mode] encodes: for a quality
    among the keys of [STREAM_QUALITY] (["sound"] included) and a
    latency among the keys of [STREAM_LATENCY], [_get_mode] returns a
    mode and [_format_mode] of that mode returns the pair
    [(quality, latency)]. *)
Theorem format_mode_inverts_get_mode (self : parameters) :
  quality self ∈ keys STREAM_QUALITY →
  latency self ∈ keys STREAM_LATENCY →
  ∃ mode, _get_mode self = Ok mode
          ∧ _format_mode mode = Ok (quality self, latency self).
Proof.
  destruct self as [q l ? ? ? ?]. simpl. intros Hq Hl.
  unfold _get_mode. simpl.
  repeat (apply elem_of_cons in Hq as [->|Hq]);
    [..|by apply elem_of_nil in Hq];
    repeat (apply elem_of_cons in Hl as [->|Hl]);
    try (by apply elem_of_nil in Hl);
    (eexists; split; [reflexivity|]); reflexivity.
Qed.

Lemma format_mode_inverts_get_mode_witness :
  ∃ mode, _get_mode scenario_params = Ok mode
          ∧ _format_mode mode = Ok ("3Mbps", "mid").
Proof.
  apply (format_mode_inverts_get_mode scenario_params);
    vm_compute; set_solver.
Defined.
End VariantSelector.

(** ** The recorder's status line *)

Section StatusLine.
Implicit Types (s t item line : string) (c : ascii)
               (stats : gmap string value) (prev : option string).

Lemma split_by_char sep s :
  Spec.split_by (fun c => bool_decide (c = sep)) s = split sep s.
Proof.
  induction s as [|c s IH]; simpl; [done|].
  rewrite IH. by case_bool_decide; case_decide.
Qed.

Lemma tokens_space line : Spec.tokens Spec.is_space line = parts line.
Proof.
  unfold Spec.tokens, parts, Spec.is_space. rewrite split_by_char.
  apply list_filter_iff. intros [|c s]; simpl.
  - split; [intros H; by destruct H | lia].
  - split; [lia | done].
Qed.

Lemma parts_nonempty line : Forall (fun t => t ≠ "") (parts line).
Proof.
  unfold parts. apply Forall_forall. intros t Ht.
  apply list_elem_of_filter in Ht as [Ht _].
  destruct t; [simpl in Ht; lia | done].
Qed.

Lemma last_char_ends_with s :
  s ≠ "" →
  ∃ c, last_char s = Ok c
       ∧ Spec.ends_with "=" s = bool_decide (c = "="%char).
Proof.
  induction s as [|c s IH]; [done|]. intros _.
  destruct s as [|c' s]; simpl; [by eexists|].
  apply IH. done.
Qed.

Lemma count_contains c s : contains c s = bool_decide (0 < Spec.count c s)%nat.
Proof.
  induction s as [|c' s IH]; simpl; [done|].
  destruct (decide (c' = c)); simpl; done.
Qed.

Lemma split_once_none c s :
  Spec.count c s = 0%nat → Spec.split_once c s = None ∧ split c s = [s].
Proof.
  induction s as [|c' s IH]; simpl; [done|].
  destruct (decide (c' = c)); [lia|].
  intros Hc. destruct (IH Hc) as [-> ->]. done.
Qed.

Lemma split_once_some c s :
  (0 < Spec.count c s)%nat →
  ∃ k v, Spec.split_once c s = Some (k, v)
         ∧ split c s = k :: split c v
         ∧ Spec.count c s = S (Spec.count c v).
Proof.
  induction s as [|c' s IH]; simpl; [lia|].
  destruct (decide (c' = c)).
  - intros _. by exists "", s.
  - intros Hc. destruct IH as (k & v & -> & -> & ->); [lia|].
    by exists (String c' k), v.
Qed.

Lemma split_length c s : length (split c s) = S (Spec.count c s).
Proof.
  induction s as [|c' s IH]; simpl; [done|].
  destruct (decide (c' = c)); simpl; [by rewrite IH|].
  destruct (split c s); simpl in *; lia.
Qed.

(** [k, v = item.split('=')] on an item with one ['='], and on an item
    with more. *)
Lemma unpack2_split_one item :
  Spec.count "=" item = 1%nat →
  ∃ k v, Spec.split_once "=" item = Some (k, v)
         ∧ unpack2 (split "=" item) = Ok (k, v).
Proof.
  intros Hc.
  destruct (split_once_some "=" item) as (k & v & Ho & Hs & Hn); [lia|].
  exists k, v. split; [done|]. rewrite Hs.
  destruct (split_once_none "=" v) as [_ ->]; [lia|]. done.
Qed.

Lemma unpack2_split_more item :
  (1 < Spec.count "=" item)%nat →
  unpack2 (split "=" item) = Raise ValueError.
Proof.
  intros Hc. pose proof (split_length "=" item) as Hl.
  destruct (split "=" item) as [|a [|b [|d l]]]; simpl in *; try lia; done.
Qed.

(** One turn of the loop against one token of the specification. *)
Lemma get_status_item_assign stats prev item :
  from_option (fun p => p ≠ "") True prev →
  get_status_item (stats, default "-" prev) item
  = if Spec.follows_key prev || bool_decide (Spec.count "=" item ≤ 1)%nat
    then Ok (Spec.assign prev item stats, item)
    else Raise ValueError.
Proof.
  intros Hprev. unfold get_status_item, Spec.assign.
  destruct (last_char_ends_with (default "-" prev)) as (c & -> & Hends).
  { destruct prev; simpl in *; done. }
  assert (Spec.follows_key prev = bool_decide (c = "="%char)) as ->.
  { rewrite <- Hends. by destruct prev. }
  simpl. case_decide as Hc.
  - rewrite bool_decide_true by done. simpl.
    destruct prev as [p|]; simpl in *; done.
  - rewrite bool_decide_false by done. simpl.
    rewrite count_contains.
    destruct (Spec.count "=" item) as [|[|n]] eqn:Hn.
    + destruct (split_once_none "=" item) as [-> _]; [done|].
      by rewrite bool_decide_false, bool_decide_true by lia.
    + destruct (unpack2_split_one item) as (k & v & -> & ->); [done|].
      by rewrite !bool_decide_true by lia.
    + rewrite unpack2_split_more by lia.
      by rewrite bool_decide_true, bool_decide_false by lia.
Qed.

Lemma for_each_parse toks : ∀ stats prev,
  Forall (fun t => t ≠ "") toks →
  from_option (fun p => p ≠ "") True prev →
  (vars ← for_each get_status_item toks (stats, default "-" prev);
   Ok vars.1)
  = if Spec.splits_in_two prev toks
    then Ok (Spec.parse_tokens prev toks stats)
    else Raise ValueError.
Proof.
  induction toks as [|t toks IH]; intros stats prev Hne Hprev; [done|].
  apply Forall_cons in Hne as [Ht Hne]. cbn [for_each Spec.splits_in_two].
  rewrite get_status_item_assign by done.
  destruct (_ || _); simpl; [|done].
  apply (IH _ (Some t)); done.
Qed.

(** [get_status] against the specification's parser on space-separated
    tokens: the same record wherever every token that is split holds
    one ['='], and [ValueError] elsewhere. *)
Lemma get_status_parse line :
  get_status (Ok line)
  = if Spec.splits_in_two None (parts line)
    then Ok (Spec.parse_status_line Spec.is_space line)
    else Raise ValueError.
Proof.
  unfold get_status, Spec.parse_status_line. simpl.
  rewrite tokens_space.
  apply (for_each_parse (parts line) default_stats None);
    [apply parts_nonempty|done].
Qed.

Lemma assign_keeps prev item stats k :
  is_Some (stats !! k) → is_Some (Spec.assign prev item stats !! k).
Proof.
  intros Hk. unfold Spec.assign.
  repeat case_match; try done; by apply lookup_insert_is_Some'; right.
Qed.

Lemma parse_tokens_keeps toks : ∀ prev stats k,
  is_Some (stats !! k) → is_Some (Spec.parse_tokens prev toks stats !! k).
Proof.
  induction toks as [|t toks IH]; intros prev stats k Hk; simpl; [done|].
  by apply IH, assign_keeps.
Qed.

(** A record that [get_status] returns has the two keys that
    [print_status] reads. *)
Lemma get_status_time_size read stats :
  get_status read = Ok stats →
  is_Some (stats !! "time") ∧ is_Some (stats !! "size").
Proof.
  destruct read as [line|e]; [|done]. rewrite get_status_parse.
  destruct (Spec.splits_in_two _ _); [|done]. intros [= <-].
  split; by apply parse_tokens_keeps.
Qed.

Lemma print_status_is_ok read (con : Logger.console) :
  (print_status read con).1 = is_ok (get_status read).
Proof.
  unfold print_status. destruct (get_status read) as [stats|e] eqn:Hst;
    [|done].
  destruct (get_status_time_size _ _ Hst) as [[t Ht] [z Hz]].
  simpl. unfold stats_getitem. by rewrite Ht, Hz.
Qed.

(** On a line as ffmpeg prints it the carriage return is a token of its
    own, which is ignored, and a padded value follows its key as the
    next token. *)
Example ffmpeg_line_parses :
  get_status (Ok ffmpeg_line)
  = Ok {[ "frame" := VStr "100"; "fps" := VStr "25"; "q" := VStr "-1.0";
          "size" := VStr "1024kB"; "time" := VStr "00:00:04.00";
          "bitrate" := VStr "2097.2kbits/s"; "speed" := VStr "1.0x" ]}.
Proof. by vm_compute. Qed.

(** C6, as the claim has it: on the scenario's line the parser of the
    claim (white-space tokens) gives the record the claim expects, and
    [get_status] returns another one; on the token ["a=b=c"] the parser
    of the claim splits once, at the first ['='], and [get_status]
    raises. *)
Lemma scenario_line_not_as_claimed :
  Spec.parse_status_line Spec.is_whitespace scenario_line = scenario_status
  ∧ get_status (Ok scenario_line) ≠ Ok scenario_status
  ∧ Spec.parse_status_line Spec.is_whitespace "a=b=c" !! "a"
    = Some (VStr "b=c")
  ∧ get_status (Ok "a=b=c") = Raise ValueError.
Proof.
  split_and!; [by vm_compute| |done..].
  intros Heq. assert (get_status (Ok scenario_line)
                      ≫= (fun st => stats_getitem st "speed")
                      = Ok (VStr "1.0x")) as Hspeed.
  { by rewrite Heq. }
  vm_compute in Hspeed. discriminate.
Qed.

(** C6, amended.  [get_status] takes as tokens the non-empty pieces
    between space characters (any other white space stays inside its
    token).  For each token: if the previous token ended with ['='] the
    token becomes the string value of that key; else if it contains one
    ['='] it is split there into key and string value; a token without
    ['='] is ignored; the keys no token assigns keep the defaults
    [{frame:0, fps:0, q:0, size:"0kB", time:"00:00:00.00",
    bitrate:"N/A", speed:"N/A"}].  A token that has to be split and
    holds a second ['='] makes the call raise [ValueError].  The
    scenario's line parses to the scenario's record except that
    [speed] is ["1.0x\r"], the carriage return included. *)
Theorem get_status_space_tokens line :
  get_status (Ok line)
  = (if Spec.splits_in_two None (Spec.tokens Spec.is_space line)
     then Ok (Spec.parse_status_line Spec.is_space line)
     else Raise ValueError)
  ∧ get_status (Ok "") = Ok default_stats
  ∧ get_status (Ok scenario_line)
    = Ok (<["speed" := VStr ("1.0x" +:+ Logger.CR)]> scenario_status).
Proof.
  split_and!.
  - rewrite tokens_space. apply get_status_parse.
  - done.
  - by vm_compute.
Qed.

(** C10.  [print_status] always returns a boolean: [True] exactly when
    [get_status] returns a record and [False] whenever it raises,
    whatever it raises.  So it returns [False] when reading the line
    fails (the end of the recorder's output, or anything else), and on
    a line that was read it returns [False] exactly when a token that
    has to be split holds a second ['='], as in ["a=b=c"]. *)
Theorem print_status_true_iff_status read (con : Logger.console) :
  (print_status read con).1 = is_ok (get_status read)
  ∧ (∀ e, (print_status (Raise e) con).1 = false)
  ∧ (∀ line,
       (print_status (Ok line) con).1
       = Spec.splits_in_two None (parts line))
  ∧ (print_status (Ok "frame=1 a=b=c") con).1 = false.
Proof.
  split_and!.
  - apply print_status_is_ok.
  - done.
  - intros line. rewrite print_status_is_ok, get_status_parse.
    by destruct (Spec.splits_in_two _ _).
  - by rewrite print_status_is_ok.
Qed.
End StatusLine.

(** ** The control channel *)

Section ControlChannel.
Import FC2WebSocket.
Implicit Types (msg arguments code : value) (s : session) (w : world).

Lemma eq_int_VInt code n :
  n ≠ 0 → n ≠ 1 → eq_int code n = true ↔ code = VInt n.
Proof.
  intros H0 H1. destruct code as [|[]|k| | |]; simpl; split;
    try done; try (case_bool_decide; simpl in *; done || lia).
  - case_bool_decide; [by subst|done].
  - intros [= ->]. by rewrite bool_decide_true.
Qed.

(** C4, as the claim has it.  The fresh session of the program receives
    [{name:"control_disconnection", arguments:{code:4000}, id:0}], a
    code other than 4101 and 4512: the dispatch loop goes on, and the
    frame is not logged, the terminal is as empty as before. *)
Lemma unrecognized_code_not_logged :
  let msg := control_disconnection 4000 in
  let s := __init__ [msg] in
  ∃ s', incoming_step IncomingAwaits s = Some (IncomingAwaits, s')
        ∧ Logger.stdout (console s') = []
        ∧ ¬ logged msg s s'.
Proof.
  eexists. split; [done|]. split; [done|].
  intros (shown & Hout & call & Hcall & _). cbn in Hout.
  destruct shown; [|done]. by apply elem_of_nil in Hcall.
Qed.

(** C4.  The dispatch loop, on a frame named [control_disconnection]:
    it raises [PaidProgramDisconnection] when [arguments.code] is 4101
    and [MultipleConnectionError] when it is 4512, both subclasses of
    [ServerDisconnection], which ends the task (it takes no further
    frame); on every other code the frame is ignored and the loop goes
    on to wait for the next frame.  In each case the only effect on the
    session is that the frame is off the socket and, at log level TRACE
    alone, that the terminal shows it, as for every received frame:
    below TRACE, so at the level INFO of the program, nothing is
    printed. *)
Theorem control_disconnection_dispatch_silent msg arguments code rest s :
  getitem msg "name" = Ok (VStr "control_disconnection") →
  getitem msg "arguments" = Ok arguments →
  getitem arguments "code" = Ok code →
  inbox s = msg :: rest →
  let taken := set_inbox rest s in
  let after := set_console (shown_at_trace msg (console s)) taken in
  (code = VInt 4101 →
   incoming_step IncomingAwaits s
   = Some (IncomingRaised PaidProgramDisconnection, after))
  ∧ (code = VInt 4512 →
     incoming_step IncomingAwaits s
     = Some (IncomingRaised MultipleConnectionError, after))
  ∧ (code ≠ VInt 4101 → code ≠ VInt 4512 →
     incoming_step IncomingAwaits s = Some (IncomingAwaits, after))
  ∧ (Logger.loglevel (console s) < Logger.LOGLEVEL_TRACE →
     after = taken ∧ ¬ logged msg s after)
  ∧ (Logger.LOGLEVEL_TRACE ≤ Logger.loglevel (console s) →
     Logger.stdout (console after)
     = Logger.stdout (console s) ++ [trace_line msg])
  ∧ (∀ e s', incoming_step (IncomingRaised e) s' = None)
  ∧ is_ServerDisconnection PaidProgramDisconnection = true
  ∧ is_ServerDisconnection MultipleConnectionError = true.
Proof.
  intros Hname Hargs Hcode Hinbox taken after.
  assert (trace [VStr "<"; msg] taken = after) as Htrace.
  { unfold after, taken, trace, Logger.trace, shown_at_trace. cbn.
    by destruct (decide (Logger.LOGLEVEL_TRACE
                         ≤ Logger.loglevel (console s))). }
  assert (_handle_incoming_frame msg taken
          = (if eq_int code 4101 then Raises PaidProgramDisconnection
             else if eq_int code 4512 then Raises MultipleConnectionError
             else Awaits, after)) as Hframe.
  { unfold _handle_incoming_frame, _receive_message_frame,
      _handle_incoming_body.
    rewrite Htrace, Hname. simpl. rewrite Hname. simpl.
    rewrite Hargs. simpl. rewrite Hcode. by repeat case_match. }
  unfold incoming_step. rewrite Hinbox. fold taken. rewrite Hframe.
  split_and!; try done.
  - by intros ->.
  - by intros ->.
  - intros H1 H2.
    destruct (eq_int code 4101) eqn:E1;
      [by apply eq_int_VInt in E1|].
    destruct (eq_int code 4512) eqn:E2;
      [by apply eq_int_VInt in E2|]. done.
  - intros Hlevel.
    assert (after = taken) as ->.
    { unfold after, shown_at_trace. rewrite decide_False by lia.
      by destruct s. }
    split; [done|].
    intros (shown & Hout & call & Hcall & _). cbn in Hout.
    rewrite <- (app_nil_r (Logger.stdout (console s))) in Hout at 1.
    apply app_inv_head in Hout. subst shown. by apply elem_of_nil in Hcall.
  - intros Hlevel. unfold after, shown_at_trace.
    by rewrite decide_True.
Qed.

Lemma control_disconnection_dispatch_silent_witness :
  incoming_step IncomingAwaits (__init__ [control_disconnection 4000])
  = Some (IncomingAwaits, __init__ []).
Proof.
  pose proof (control_disconnection_dispatch_silent
                (control_disconnection 4000)
                (VDict [("code", VInt 4000)]) (VInt 4000) []
                (__init__ [control_disconnection 4000])
                eq_refl eq_refl eq_refl eq_refl) as H.
  cbv zeta in H. destruct H as (_ & _ & Hother & _).
  by rewrite Hother.
Defined.

(** A turn of a call, taken apart. *)
Lemma step_call_inv i w w' :
  step (Call i) w = Some w' →
  ∃ c c' s',
    calls w !! i = Some c ∧ call_step c (ws w) = Some (c', s')
    ∧ w' = World s' (incoming w) (heartbeat w) (<[i := c']> (calls w)).
Proof.
  unfold step. destruct (calls w !! i) as [c|]; [|done]. cbn -[call_step].
  destruct (call_step c (ws w)) as [[c' s']|] eqn:Hcall; [|done].
  intros [= <-]. by exists c, c', s'.
Qed.

Lemma dropped_put_fold (items : list value) s :
  fold_left (fun s comment => dropped (Queue_put comment) s) items s = s.
Proof. by induction items. Qed.

Lemma receive_message_top_comments msg_id s :
  comments (_receive_message_top msg_id s).2 = comments s.
Proof. unfold _receive_message_top. by repeat case_match. Qed.

Lemma receive_message_frame_comments msg_id msg s :
  comments (_receive_message_frame msg_id msg s).2 = comments s.
Proof.
  unfold _receive_message_frame.
  repeat case_match; by rewrite ?receive_message_top_comments.
Qed.

Lemma handle_incoming_body_comments msg s :
  comments (_handle_incoming_body msg s).2 = comments s.
Proof.
  unfold _handle_incoming_body.
  repeat case_match; simpl; try done. by rewrite dropped_put_fold.
Qed.

Lemma handle_incoming_frame_comments msg s :
  comments (_handle_incoming_frame msg s).2 = comments s.
Proof.
  unfold _handle_incoming_frame.
  pose proof (receive_message_frame_comments None msg s) as Hrecv.
  destruct (_receive_message_frame None msg s) as [[m|e|] s']; simpl in *;
    [|done..].
  by rewrite handle_incoming_body_comments.
Qed.

Lemma call_step_comments c c' s s' :
  call_step c s = Some (c', s') → comments s' = comments s.
Proof.
  destruct c as [| |msg_id|r|e]; unfold call_step; try done.
  - by intros [= _ <-].
  - pose proof (receive_message_top_comments (Some (_send_message_return s)) s)
      as Hc.
    destruct (_receive_message_top _ s) as [p s1]. by intros [= _ <-].
  - destruct (inbox s) as [|msg rest]; [done|].
    pose proof (receive_message_frame_comments (Some msg_id) msg
                  (set_inbox rest s)) as Hc.
    destruct (_receive_message_frame _ msg _) as [p s1]. by intros [= _ <-].
Qed.

Lemma step_comments t w w' :
  step t w = Some w' → comments (ws w') = comments (ws w).
Proof.
  destruct t as [| |i].
  - unfold step, incoming_step.
    destruct (incoming w); [|done].
    destruct (inbox (ws w)) as [|msg rest]; [done|].
    pose proof (handle_incoming_frame_comments msg (set_inbox rest (ws w)))
      as Hc.
    destruct (_handle_incoming_frame msg _) as [[[]|e|] s1];
      by intros [= <-].
  - unfold step. by destruct (heartbeat w); intros [= <-].
  - intros (c & c' & s' & _ & Hstep & ->)%step_call_inv.
    by apply call_step_comments in Hstep.
Qed.

(** Under every schedule and whatever the server sends, the comment queue
    of a session stays as empty as [__init__] made it. *)
Lemma queue_stays_empty frames n schedule w :
  run schedule (__aenter__ frames n) = Some w → comments (ws w) = [].
Proof.
  assert (∀ w0 w1, run schedule w0 = Some w1
                   → comments (ws w1) = comments (ws w0)) as Hrun.
  { induction schedule as [|t schedule IH]; intros w0 w1; simpl.
    - by intros [= <-].
    - destruct (step t w0) as [w0'|] eqn:Hstep; [|done]. simpl.
      intros Hrest. rewrite (IH _ _ Hrest). by apply (step_comments t). }
  intros Hw. by rewrite (Hrun _ _ Hw).
Qed.

(** C5, on the code.  On the push
    [{name:"comment", arguments:{comments:["a","b"]}, id:0}] the
    dispatch loop goes through the two entries and the queue is as
    empty afterwards as before: line 129 calls the coroutine function
    [Queue.put] without awaiting what it returns, so nothing is put.
    No frame at all changes the queue.  Had each call been awaited, the
    queue would hold ["a"] then ["b"]. *)
Theorem comment_push_leaves_queue_empty :
  comments_after [Incoming]
    (__aenter__ [comment_push [VStr "a"; VStr "b"]] 0) = Some []
  ∧ (∀ msg s, comments (_handle_incoming_frame msg s).2 = comments s)
  ∧ comments
      (fold_left (fun s comment => (await (Queue_put comment) s).2)
                 [VStr "a"; VStr "b"] (__init__ []))
    = [VStr "a"; VStr "b"].
Proof.
  split_and!; [done|apply handle_incoming_frame_comments|done].
Qed.

(** *** Correlation by id

    What the response table guarantees under every interleaving, and what
    it takes for a call to wait for the id it sent. *)
Lemma filed_by_id_top frames msg_id s :
  filed_by_id frames s →
  filed_by_id frames (_receive_message_top msg_id s).2
  ∧ ∀ r, (_receive_message_top msg_id s).1 = Returns r →
         ∃ i, msg_id = Some i ∧ r ∈ frames ∧ response_to i r.
Proof.
  intros (taken & Hfr & Htab). unfold _receive_message_top.
  destruct msg_id as [i|]; [|split; [by exists taken|done]].
  destruct (_msg_responses s !! i) as [v|] eqn:Hv; simpl.
  - split.
    + exists taken. split; [done|]. intros j u Hu. simpl in Hu.
      apply lookup_delete_Some in Hu as [_ Hu]. by apply Htab.
    + intros r [= <-]. destruct (Htab _ _ Hv) as [Hin Hresp].
      exists i. rewrite Hfr. split_and!; [done| |done].
      apply elem_of_app. by left.
  - split; [by exists taken|done].
Qed.

Lemma responses_setitem_filed key msg t t' taken :
  responses_setitem key msg t = Ok t' →
  (∃ name, getitem msg "name" = Ok name ∧ eq_str name "_response_" = true) →
  getitem msg "id" = Ok key →
  (∀ i v, t !! i = Some v → v ∈ taken ∧ response_to i v) →
  ∀ i v, t' !! i = Some v → v ∈ taken ++ [msg] ∧ response_to i v.
Proof.
  intros Hset (name & Hname & Hresp) Hid Htab i v Hv.
  assert (∀ n, eq_int key n = true → t' = <[n := msg]> t →
               v ∈ taken ++ [msg] ∧ response_to i v) as Hins.
  { intros n Hn ->. apply lookup_insert_Some in Hv as [[<- <-]|[_ Hv]].
    - split; [apply elem_of_app; right; by left|]. by exists name, key.
    - destruct (Htab _ _ Hv). split; [apply elem_of_app; by left|done]. }
  assert (t' = t → v ∈ taken ++ [msg] ∧ response_to i v) as Hsame.
  { intros ->. destruct (Htab _ _ Hv). split; [apply elem_of_app; by left|done]. }
  destruct key as [|b|n|z| |]; simpl in Hset; try done;
    injection Hset as <-; try (by apply Hsame).
  - apply (Hins (Z.b2z b)); [simpl; by rewrite bool_decide_true|done].
  - apply (Hins n); [simpl; by rewrite bool_decide_true|done].
Qed.

Lemma filed_by_id_frame frames msg_id msg rest s :
  inbox s = msg :: rest →
  filed_by_id frames s →
  filed_by_id frames (_receive_message_frame msg_id msg (set_inbox rest s)).2
  ∧ ∀ r, (_receive_message_frame msg_id msg (set_inbox rest s)).1 = Returns r →
         match msg_id with
         | Some i => r ∈ frames ∧ response_to i r
         | None => r = msg ∧ ∃ name, getitem msg "name" = Ok name
                                     ∧ eq_str name "_response_" = false
         end.
Proof.
  intros Hin (taken & Hfr & Htab). rewrite Hin in Hfr.
  assert (filed_by_id frames (trace [VStr "<"; msg] (set_inbox rest s)))
    as Hnext.
  { exists (taken ++ [msg]). simpl. split; [by rewrite <- app_assoc|].
    intros i v Hv. destruct (Htab _ _ Hv).
    split; [apply elem_of_app; by left|done]. }
  unfold _receive_message_frame.
  destruct (getitem msg "name") as [name|e] eqn:Hname; [|done].
  destruct (eq_str name "_response_") eqn:Hresp.
  - destruct (getitem msg "id") as [key|e] eqn:Hid; simpl; [|done].
    destruct (responses_setitem key msg _) as [t|e] eqn:Hset; [|done].
    assert (filed_by_id frames
              (set_msg_responses t (trace [VStr "<"; msg] (set_inbox rest s))))
      as Hstored.
    { exists (taken ++ [msg]). simpl. split; [by rewrite <- app_assoc|].
      eapply responses_setitem_filed; eauto. }
    destruct (filed_by_id_top frames msg_id _ Hstored) as [Hf Hr].
    split; [done|]. intros r Hret.
    destruct (Hr r Hret) as (i & -> & ? & ?). done.
  - destruct msg_id as [i|].
    + destruct (filed_by_id_top frames (Some i) _ Hnext) as [Hf Hr].
      split; [done|]. intros r Hret.
      destruct (Hr r Hret) as (j & [= <-] & ? & ?). done.
    + split; [done|]. intros r [= <-]. split; [done|]. by exists name.
Qed.

Lemma filed_by_id_same frames s s' :
  _msg_responses s' = _msg_responses s → inbox s' = inbox s →
  filed_by_id frames s → filed_by_id frames s'.
Proof. intros Ht Hi (taken & ? & ?). exists taken. by rewrite Ht, Hi. Qed.

Lemma filed_by_id_body frames msg name s :
  getitem msg "name" = Ok name → eq_str name "_response_" = false →
  filed_by_id frames s → filed_by_id frames (_handle_incoming_body msg s).2.
Proof.
  intros Hname Hresp Hf. unfold _handle_incoming_body.
  rewrite Hname, Hresp.
  repeat case_match; simpl; by rewrite ?dropped_put_fold.
Qed.

Lemma filed_by_id_incoming frames t t' s s' :
  incoming_step t s = Some (t', s') →
  filed_by_id frames s → filed_by_id frames s'.
Proof.
  unfold incoming_step, _handle_incoming_frame.
  destruct t; [|done]. destruct (inbox s) as [|msg rest] eqn:Hin; [done|].
  intros Hstep Hf.
  destruct (filed_by_id_frame frames None msg rest s Hin Hf) as [Hf' Hret].
  destruct (_receive_message_frame None msg (set_inbox rest s))
    as [[m|e|] s1]; simpl in *.
  - destruct (Hret m eq_refl) as (-> & name & Hname & Hresp).
    pose proof (filed_by_id_body frames msg name s1 Hname Hresp Hf') as Hb.
    destruct (_handle_incoming_body msg s1) as [[[]|e|] s2];
      by injection Hstep as _ <-.
  - by injection Hstep as _ <-.
  - by injection Hstep as _ <-.
Qed.

Lemma filed_by_id_send frames name arguments s :
  filed_by_id frames s →
  filed_by_id frames (_send_message_call name arguments s).
Proof. by apply filed_by_id_same. Qed.

(** A call that comes back does so with the [arguments] of a
    [_response_] frame from the socket whose id is the [msg_id] the call
    waits for. *)
Lemma filed_by_id_call frames c c' s s' :
  call_step c s = Some (c', s') →
  filed_by_id frames s →
  filed_by_id frames s'
  ∧ ∀ r, c' = CallReturned r →
         ∃ msg_id v,
           (c = CallAwaits msg_id ∨ c = CallSending ∧ msg_id = _msg_id s)
           ∧ v ∈ frames ∧ response_to msg_id v
           ∧ getitem v "arguments" = Ok r.
Proof.
  intros Hstep Hf.
  destruct c as [| |msg_id|r0|e]; unfold call_step in Hstep; try done.
  - injection Hstep as <- <-. split; [by apply filed_by_id_send|done].
  - destruct (filed_by_id_top frames (Some (_send_message_return s)) s Hf)
      as [Hf' Hret].
    destruct (_receive_message_top _ s) as [p s1]. injection Hstep as <- <-.
    split; [done|]. intros r Hr. destruct p as [v| |]; simpl in Hr; try done.
    destruct (Hret v eq_refl) as (i & [= <-] & Hin & Hresp).
    exists (_msg_id s), v. split_and!; [by right|done|done|].
    unfold get_hls_information_return in Hr.
    destruct (getitem v "arguments"); [by injection Hr as ->|done].
  - destruct (inbox s) as [|msg rest] eqn:Hin; [done|].
    destruct (filed_by_id_frame frames (Some msg_id) msg rest s Hin Hf)
      as [Hf' Hret].
    destruct (_receive_message_frame _ msg _) as [p s1].
    injection Hstep as <- <-.
    split; [done|]. intros r Hr. destruct p as [v| |]; simpl in Hr; try done.
    destruct (Hret v eq_refl) as [Hv Hresp].
    exists msg_id, v. split_and!; [by left|done|done|].
    unfold get_hls_information_return in Hr.
    destruct (getitem v "arguments"); [by injection Hr as ->|done].
Qed.

Lemma filed_by_id_step frames t w w' :
  step t w = Some w' → filed_by_id frames (ws w) → filed_by_id frames (ws w').
Proof.
  destruct t as [| |i]; simpl.
  - destruct (incoming_step _ _) as [[t' s']|] eqn:Hstep; [|done].
    intros [= <-]. by eapply filed_by_id_incoming.
  - destruct (heartbeat w); intros [= <-] Hf; simpl; [|done].
    by apply (filed_by_id_same frames (ws w)).
  - intros (c & c' & s' & _ & Hstep & ->)%step_call_inv Hf. simpl.
    by destruct (filed_by_id_call _ _ _ _ _ Hstep Hf).
Qed.

Lemma filed_by_id_run frames schedule : ∀ w w',
  run schedule w = Some w' →
  filed_by_id frames (ws w) → filed_by_id frames (ws w').
Proof.
  induction schedule as [|t schedule IH]; intros w w'; simpl.
  - by intros [= <-].
  - destruct (step t w) as [w1|] eqn:Hstep; [|done]. simpl.
    intros Hrun Hf. eapply IH; [done|]. by eapply filed_by_id_step.
Qed.

(** X17.  Correlation by id, whatever the order of arrival and the
    interleaving: in a session reached from [__aenter__] by any schedule,
    a call that waits for [msg_id] and returns [r] returns the
    [arguments] of a [_response_] frame that the socket delivered and
    whose id is [msg_id]. *)
Lemma call_returns_response_to_awaited_id frames n schedule w w' i msg_id r :
  run schedule (__aenter__ frames n) = Some w →
  calls w !! i = Some (CallAwaits msg_id) →
  step (Call i) w = Some w' →
  calls w' !! i = Some (CallReturned r) →
  ∃ v, v ∈ frames ∧ response_to msg_id v ∧ getitem v "arguments" = Ok r.
Proof.
  intros Hrun Hc Hstep Hc'.
  assert (filed_by_id frames (ws w)) as Hf.
  { eapply filed_by_id_run; [done|]. exists []. by split. }
  apply step_call_inv in Hstep as (c & c' & s' & Hc0 & Hcall & ->).
  rewrite Hc in Hc0. injection Hc0 as <-. simpl in Hc'.
  rewrite list_lookup_insert_eq in Hc' by (by eapply lookup_lt_Some).
  injection Hc' as ->.
  destruct (filed_by_id_call _ _ _ _ _ Hcall Hf) as [_ Hret].
  destruct (Hret r eq_refl) as (j & v & [[= <-]|[? _]] & ? & ? & ?); [|done].
  by exists v.
Qed.


(** A response that the dispatch loop takes off the socket is filed in
    the table, but the call it answers stays suspended in
    [receive_json()] until some further frame wakes it; that frame, here
    a comment push, is consumed by the call and never dispatched. *)
Lemma response_taken_by_dispatch_loop :
  let w := __aenter__ [response 1 reply_to_1] 1 in
  let w' := __aenter__ [response 1 reply_to_1; comment_push []] 1 in
  calls_after [Call 0; Call 0; Incoming] w = Some [CallAwaits 1]
  ∧ run [Call 0; Call 0; Incoming; Call 0] w = None
  ∧ calls_after [Call 0; Call 0; Incoming; Call 0] w'
    = Some [CallReturned reply_to_1].
Proof. by vm_compute. Qed.

(** C1, on the code.  Two calls of [get_hls_information] on one
    session, the second starting while the first is suspended in
    [await self._ws.send_json(...)]: the first call sends id 1 and the
    second id 2; when the first call resumes, [return self._msg_id]
    reads 2, so both calls wait for id 2.  With the responses to 1 and
    2 on the socket, in either order, the first call returns the
    arguments of the response to 2; the second call is left waiting,
    and the response to 1 stays in the table.  The heartbeat task
    does the same to a single call: its [_send_message] moves the
    counter while the call is suspended, and the call returns the
    response to the heartbeat's id. *)
Theorem concurrent_calls_wait_for_latest_id :
  let w := __aenter__ [response 1 reply_to_1; response 2 reply_to_2] 2 in
  let w' := __aenter__ [response 2 reply_to_2; response 1 reply_to_1] 2 in
  let h := __aenter__ [response 1 reply_to_1; response 2 reply_to_2] 1 in
  outbox_after [Call 0] w = Some [request "get_hls_information" 1]
  ∧ outbox_after [Call 0; Call 1] w
    = Some [request "get_hls_information" 1;
            request "get_hls_information" 2]
  ∧ calls_after [Call 0; Call 1; Call 0; Call 1] w
    = Some [CallAwaits 2; CallAwaits 2]
  ∧ calls_after [Call 0; Call 1; Call 0; Call 1; Call 0; Call 0] w
    = Some [CallReturned reply_to_2; CallAwaits 2]
  ∧ run [Call 0; Call 1; Call 0; Call 1; Call 0; Call 0; Call 1] w = None
  ∧ calls_after [Call 0; Call 1; Call 0; Call 1; Call 0] w'
    = Some [CallReturned reply_to_2; CallAwaits 2]
  ∧ outbox_after [Call 0; Heartbeat] h
    = Some [request "get_hls_information" 1; request "heartbeat" 2]
  ∧ calls_after [Call 0; Heartbeat; Call 0; Call 0; Call 0] h
    = Some [CallReturned reply_to_2].
Proof. by vm_compute. Qed.
End ControlChannel.

(** * Further properties *)

(** ** The code books and the selection *)

Section CodeBooks.
Implicit Types (self : parameters) (l merged : list playlist).

Lemma dict_getitem_elem {V} (d : list (string * V)) k :
  (k ∈ keys d → ∃ v, dict_getitem d k = Ok v)
  ∧ (k ∉ keys d → dict_getitem d k = Raise KeyError).
Proof.
  unfold keys. induction d as [|[k' v] d IH]; simpl.
  - split; [by intros ?%elem_of_nil|done].
  - case_decide as Hk; [subst; split; [by eexists|]|].
    + intros []. by left.
    + destruct IH as [IH1 IH2]. split.
      * intros [?|?]%elem_of_cons; [done|by apply IH1].
      * intros Hn. apply IH2. intros ?. apply Hn. by right.
Qed.

(** X1.  [_get_mode] raises exactly when the quality or the latency is
    not a key of its code book, and what it raises then is [KeyError];
    otherwise it returns a mode between 10 and 92. *)
Theorem get_mode_key_error self :
  (quality self ∈ keys STREAM_QUALITY ∧ latency self ∈ keys STREAM_LATENCY →
   ∃ mode, _get_mode self = Ok mode ∧ 10 ≤ mode ≤ 92)
  ∧ (¬ (quality self ∈ keys STREAM_QUALITY
        ∧ latency self ∈ keys STREAM_LATENCY) →
     _get_mode self = Raise KeyError).
Proof.
  unfold _get_mode. split.
  - intros [Hq Hl].
    repeat (apply elem_of_cons in Hq as [->|Hq]);
      [..|by apply elem_of_nil in Hq];
      repeat (apply elem_of_cons in Hl as [->|Hl]);
      try (by apply elem_of_nil in Hl);
      (eexists; split; [reflexivity|lia]).
  - intros Hn.
    pose proof (dict_getitem_elem STREAM_QUALITY (quality self)) as [Hq1 Hq2].
    pose proof (dict_getitem_elem STREAM_LATENCY (latency self)) as [Hl1 Hl2].
    destruct (decide (quality self ∈ keys STREAM_QUALITY)) as [Hq|Hq];
      [|by rewrite (Hq2 Hq)].
    destruct (decide (latency self ∈ keys STREAM_LATENCY)) as [Hl|Hl];
      [by destruct Hn|].
    destruct (Hq1 Hq) as [q ->]. by rewrite (Hl2 Hl).
Qed.

Lemma get_mode_key_error_witness :
  _get_mode (Parameters "4K" "mid" "" false false 5) = Raise KeyError.
Proof.
  apply (get_mode_key_error (Parameters "4K" "mid" "" false false 5)).
  apply (bool_decide_unpack _). by vm_compute.
Defined.

Lemma list_index_lookup (xs : list Z) (x : Z) i :
  list_index xs x = Ok i → xs !! i = Some x.
Proof.
  revert i. induction xs as [|y xs IH]; intros i; csimpl;
    [intros H; discriminate H|].
  case_decide as Hy; [by intros [= <-]; subst|].
  destruct (list_index xs x) as [j|e]; csimpl; [|intros H; discriminate H].
  intros [= <-]. by apply IH.
Qed.

Lemma dict_getitem_lookup {V} (d : list (string * V)) i k v :
  NoDup (keys d) → d !! i = Some (k, v) → dict_getitem d k = Ok v.
Proof.
  unfold keys. revert i. induction d as [|[k' v'] d IH]; intros i; csimpl;
    [done|].
  intros [Hk' Hnd]%NoDup_cons. destruct i as [|i]; csimpl.
  - intros [= -> ->]. by rewrite decide_True.
  - intros Hi. rewrite decide_False; [by eapply IH|].
    intros ->. apply Hk'. apply list_elem_of_fmap. exists (k, v).
    split; [done|]. by eapply list_elem_of_lookup_2.
Qed.

(** In a dict, which has every key once, [dict_search] finds a key that
    holds the value looked for. *)
Lemma dict_search_getitem (d : list (string * Z)) (needle : Z) k :
  NoDup (keys d) → dict_search d needle = Ok k → dict_getitem d k = Ok needle.
Proof.
  intros Hnd. unfold dict_search, list_getitem, values.
  destruct (list_index d.*2 needle) as [i|e] eqn:Hi; csimpl;
    [|intros H; discriminate H].
  apply list_index_lookup in Hi. unfold keys.
  destruct (d.*1 !! i) as [k0|] eqn:Hk0; [|intros H; discriminate H].
  intros [= ->]. apply (dict_getitem_lookup d i); [done|].
  rewrite list_lookup_fmap in Hi. rewrite list_lookup_fmap in Hk0.
  destruct (d !! i) as [[k1 v1]|]; simpl in *; [|done].
  by injection Hi as ->; injection Hk0 as ->.
Qed.

(** X2.  Decoding then encoding: whenever [_format_mode] decodes a mode
    into a quality and a latency, [_get_mode] on that quality and that
    latency gives the mode back. *)
Theorem get_mode_inverts_format_mode self (mode : Z) :
  _format_mode mode = Ok (quality self, latency self) →
  _get_mode self = Ok mode.
Proof.
  unfold _format_mode, _get_mode.
  destruct (dict_search STREAM_LATENCY _) as [l|e] eqn:Hl;
    [|intros H; discriminate H].
  destruct (dict_search STREAM_QUALITY _) as [q|e] eqn:Hq;
    [|intros H; discriminate H].
  intros [= <- <-].
  apply dict_search_getitem in Hl as ->;
    [|apply (bool_decide_unpack _); by vm_compute].
  apply dict_search_getitem in Hq as ->;
    [|apply (bool_decide_unpack _); by vm_compute].
  simpl. f_equal. pose proof (Z.div_mod mode 10 ltac:(lia)). lia.
Qed.

Lemma get_mode_inverts_format_mode_witness :
  _get_mode (Parameters "sound" "high" "" false false 5) = Ok 91.
Proof.
  by apply (get_mode_inverts_format_mode
              (Parameters "sound" "high" "" false false 5) 91).
Defined.
Lemma filter_mode_sorted (m : Z) merged :
  filter (fun p => mode p = m) (_sort_playlists merged)
  = filter (fun p => mode p = m) merged.
Proof.
  set (k := key_map (Playlist m "")).
  assert (∀ l, filter (fun p => mode p = m) l
               = filter (fun p => mode p = m) (with_key key_map k l)) as Hk.
  { intros l. unfold with_key. rewrite list_filter_filter.
    apply list_filter_iff. intros p. split; [|tauto].
    intros Hp. split; [done|]. unfold k, key_map. simpl. by rewrite Hp. }
  rewrite Hk, (Hk merged). unfold _sort_playlists.
  by rewrite sorted_reverse_stable.
Qed.

(** X3.  When some merged variant has the desired mode, the variant
    chosen is the last of them in the order of merging, wherever sorting
    has moved them: among variants of one mode the
    [playlists_middle_latency] entry wins over the
    [playlists_high_latency] one, which wins over the [playlists] one. *)
Theorem selection_takes_last_merged_match merged (desired : Z) p :
  last (filter (fun p => mode p = desired) merged) = Some p →
  _get_playlist_or_best (_sort_playlists merged) (Some desired) = Ok p.
Proof.
  intros Hlast. unfold _get_playlist_or_best. rewrite last_match_fold.
  assert (filter (fun p => Some (mode p) = Some desired)
                 (_sort_playlists merged)
          = filter (fun p => mode p = desired) merged) as ->.
  { rewrite <- filter_mode_sorted. apply list_filter_iff.
    intros q. split; congruence. }
  by rewrite Hlast.
Qed.

Lemma selection_takes_last_merged_match_witness :
  _get_playlist_or_best
    (_sort_playlists [Playlist 52 "a"; Playlist 10 "b"; Playlist 52 "c"])
    (Some 52)
  = Ok (Playlist 52 "c").
Proof.
  by apply (selection_takes_last_merged_match
              [Playlist 52 "a"; Playlist 10 "b"; Playlist 52 "c"] 52
              (Playlist 52 "c")).
Defined.

Lemma sorted_head_is_max l p rest :
  _sort_playlists l = p :: rest →
  p ∈ l ∧ (∀ q, q ∈ l → key_map q ≤ key_map p)
  ∧ head (with_key key_map (key_map p) l) = Some p.
Proof.
  intros Hs.
  pose proof (sorted_reverse_perm key_map l) as Hperm.
  pose proof (sorted_reverse_sorted key_map l) as Hsorted.
  pose proof (sorted_reverse_stable key_map (key_map p) l) as Hst.
  unfold _sort_playlists in Hs. rewrite Hs in Hperm, Hsorted, Hst.
  split_and!.
  - rewrite <- Hperm. by left.
  - intros q Hq. rewrite <- Hperm in Hq.
    apply elem_of_cons in Hq as [->|Hq]; [done|].
    apply StronglySorted_inv in Hsorted as [_ Hall].
    rewrite Forall_forall in Hall. by apply Hall.
  - rewrite <- Hst. unfold with_key. rewrite filter_cons.
    by rewrite decide_True.
Qed.

Lemma fallback_choice merged (desired : Z) :
  merged ≠ [] →
  filter (fun p => mode p = desired) merged = [] →
  ∃ p, _get_playlist_or_best (_sort_playlists merged) (Some desired) = Ok p
       ∧ p ∈ merged
       ∧ (∀ q, q ∈ merged → key_map q ≤ key_map p)
       ∧ head (with_key key_map (key_map p) merged) = Some p.
Proof.
  intros Hne Hnone. unfold _get_playlist_or_best. rewrite last_match_fold.
  assert (filter (fun p => Some (mode p) = Some desired)
                 (_sort_playlists merged) = []) as ->.
  { rewrite <- Hnone, <- filter_mode_sorted. apply list_filter_iff.
    intros q. split; congruence. }
  simpl. destruct (_sort_playlists merged) as [|p rest] eqn:Hs.
  - destruct Hne. apply Permutation_nil_r. rewrite <- Hs.
    symmetry. apply sorted_reverse_perm.
  - exists p. split; [done|]. by apply sorted_head_is_max in Hs.
Qed.

(** X4.  When no merged variant has the desired mode and there is at
    least one variant, the variant chosen has the greatest rank key of
    all, and among the variants of that rank it is the first in the
    order of merging. *)
Theorem fallback_takes_first_of_highest_rank merged (desired : Z) :
  merged ≠ [] →
  filter (fun p => mode p = desired) merged = [] →
  ∃ p, _get_playlist_or_best (_sort_playlists merged) (Some desired) = Ok p
       ∧ p ∈ merged
       ∧ (∀ q, q ∈ merged → key_map q ≤ key_map p)
       ∧ head (with_key key_map (key_map p) merged) = Some p.
Proof. apply fallback_choice. Qed.

Lemma fallback_takes_first_of_highest_rank_witness :
  ∃ p, _get_playlist_or_best
         (_sort_playlists [Playlist 90 "audio"; Playlist 41 "x";
                           Playlist 131 "y"]) (Some 52) = Ok p
       ∧ p ∈ [Playlist 90 "audio"; Playlist 41 "x"; Playlist 131 "y"]
       ∧ (∀ q, q ∈ [Playlist 90 "audio"; Playlist 41 "x"; Playlist 131 "y"]
               → key_map q ≤ key_map p)
       ∧ head (with_key key_map (key_map p)
                 [Playlist 90 "audio"; Playlist 41 "x"; Playlist 131 "y"])
         = Some p.
Proof.
  apply (fallback_takes_first_of_highest_rank
           [Playlist 90 "audio"; Playlist 41 "x"; Playlist 131 "y"] 52);
    done.
Defined.

(** X5.  With every mode below 100, as in the code books, the fall-back
    never picks an audio-only variant (mode 90 and above) while a variant
    of mode 10 to 89 is there: audio ranks below every video variant. *)
Theorem fallback_prefers_video merged (desired : Z) (video : playlist) :
  Forall (fun p => mode p < 100) merged →
  video ∈ merged → 10 ≤ mode video < 90 →
  filter (fun p => mode p = desired) merged = [] →
  ∃ p, _get_playlist_or_best (_sort_playlists merged) (Some desired) = Ok p
       ∧ p ∈ merged ∧ mode video ≤ mode p < 90.
Proof.
  intros Hall Hv Hmode Hnone.
  destruct (fallback_choice merged desired)
    as (p & Hsel & Hp & Hmax & _);
    [by intros ->; apply elem_of_nil in Hv | done |].
  exists p. specialize (Hmax _ Hv). rewrite Forall_forall in Hall.
  specialize (Hall _ Hp). unfold key_map in Hmax.
  split_and!; [done..| |]; repeat case_decide; lia.
Qed.

Lemma fallback_prefers_video_witness :
  ∃ p, _get_playlist_or_best
         (_sort_playlists [Playlist 92 "audio"; Playlist 10 "low"])
         (Some 52) = Ok p
       ∧ p ∈ [Playlist 92 "audio"; Playlist 10 "low"]
       ∧ mode (Playlist 10 "low") ≤ mode p < 90.
Proof.
  apply (fallback_prefers_video [Playlist 92 "audio"; Playlist 10 "low"] 52
                                (Playlist 10 "low"));
    [repeat constructor; simpl; lia | set_solver | simpl; lia | done].
Defined.
End CodeBooks.


(** ** sanitize_filename and the spinner *)

Section Sanitize.
Implicit Types (s : string) (c : ascii).

Lemma replace_map_chars old new s :
  Text.replace old new s
  = map_chars (fun c => if decide (c = old) then new else c) s.
Proof. induction s as [|c s IH]; [done|]. cbn. by rewrite IH. Qed.

Lemma map_chars_compose (f g : ascii → ascii) s :
  map_chars f (map_chars g s) = map_chars (fun c => f (g c)) s.
Proof. induction s as [|c s IH]; [done|]. cbn. by rewrite IH. Qed.

Lemma map_chars_ext (f g : ascii → ascii) s :
  (∀ c, f c = g c) → map_chars f s = map_chars g s.
Proof. intros H. induction s as [|c s IH]; [done|]. cbn. by rewrite H, IH. Qed.

(** The loop of replacements, one character at a time. *)
Lemma replace_each_map (us : list ascii) : ∀ s,
  fold_left (fun fname u => Text.replace u "_" fname) us s
  = map_chars
      (fun c => fold_left (fun c u => if decide (c = u) then "_"%char else c)
                          us c) s.
Proof.
  induction us as [|u us IH]; intros s; cbn [fold_left].
  - induction s as [|c s IHs]; [done|]. cbn. by rewrite <- IHs.
  - by rewrite IH, replace_map_chars, map_chars_compose.
Qed.

Lemma replace_each_char (us : list ascii) : ∀ c,
  "_"%char ∉ us →
  fold_left (fun c u => if decide (c = u) then "_"%char else c) us c
  = if decide (c ∈ us) then "_"%char else c.
Proof.
  induction us as [|u us IH]; intros c Hus; cbn [fold_left].
  - rewrite decide_False; [done|]. apply not_elem_of_nil.
  - apply not_elem_of_cons in Hus as [Hu Hus].
    destruct (decide (c = u)) as [->|Hc].
    + rewrite (IH _ Hus). rewrite decide_False by done.
      rewrite decide_True; [done|]. by left.
    + rewrite (IH _ Hus). destruct (decide (c ∈ us)) as [Hin|Hin].
      * rewrite decide_True; [done|]. by right.
      * rewrite decide_False; [done|]. by intros [?|?]%elem_of_cons.
Qed.

Lemma underscore_is_safe : "_"%char ∉ Helpers.unsafe_chars.
Proof. apply (bool_decide_unpack _). by vm_compute. Qed.

Lemma sanitize_filename_map s :
  Helpers.sanitize_filename s = map_chars sanitize_char s.
Proof.
  unfold Helpers.sanitize_filename. rewrite replace_each_map.
  apply map_chars_ext. intros c. apply replace_each_char, underscore_is_safe.
Qed.

Lemma sanitize_filename_cons c s :
  Helpers.sanitize_filename (String c s)
  = String (sanitize_char c) (Helpers.sanitize_filename s).
Proof. by rewrite !sanitize_filename_map. Qed.

Lemma sanitize_char_safe c u :
  u ∈ Helpers.unsafe_chars → sanitize_char c ≠ u.
Proof.
  intros Hu. unfold sanitize_char.
  destruct (decide (c ∈ Helpers.unsafe_chars)) as [Hin|Hin]; [|congruence].
  intros <-. by apply underscore_is_safe.
Qed.

Lemma contains_map_chars_false (f : ascii → ascii) u s :
  (∀ c, f c ≠ u) → contains u (map_chars f s) = false.
Proof.
  intros Hf. induction s as [|c s IH]; simpl; [done|].
  by rewrite decide_False.
Qed.

Lemma sanitize_filename_safe s : safe_text (Helpers.sanitize_filename s).
Proof.
  rewrite sanitize_filename_map. unfold safe_text.
  apply Forall_forall. intros u Hu.
  apply contains_map_chars_false. intros c. by apply sanitize_char_safe.
Qed.

(** X6.  [sanitize_filename] changes the text character by character:
    each of the nine unsafe characters becomes an underscore and every
    other character stays, so the length is kept and no unsafe character
    is left. *)
Theorem sanitize_filename_chars s :
  Helpers.sanitize_filename s = map_chars sanitize_char s
  ∧ String.length (Helpers.sanitize_filename s) = String.length s
  ∧ safe_text (Helpers.sanitize_filename s).
Proof.
  split_and!.
  - apply sanitize_filename_map.
  - induction s as [|c s IH]; [done|].
    rewrite sanitize_filename_cons. cbn [String.length]. by f_equal.
  - apply sanitize_filename_safe.
Qed.

Lemma safe_text_cons c s :
  safe_text (String c s) ↔ (c ∉ Helpers.unsafe_chars) ∧ safe_text s.
Proof.
  unfold safe_text. rewrite !Forall_forall. split.
  - intros H. split.
    + intros Hc. specialize (H _ Hc). simpl in H. by rewrite decide_True in H.
    + intros u Hu. specialize (H _ Hu). simpl in H. by case_decide.
  - intros [Hc H] u Hu. simpl. rewrite decide_False; [by apply H|].
    by intros ->.
Qed.

(** X7.  [sanitize_filename] leaves a text as it is exactly when the text
    holds no unsafe character; in particular sanitizing twice is
    sanitizing once. *)
Theorem sanitize_filename_fixed_point s :
  (Helpers.sanitize_filename s = s ↔ safe_text s)
  ∧ Helpers.sanitize_filename (Helpers.sanitize_filename s)
    = Helpers.sanitize_filename s.
Proof.
  assert (∀ t, Helpers.sanitize_filename t = t ↔ safe_text t) as Hfix.
  { induction t as [|c t IH].
    - split; [|done]. intros _. unfold safe_text.
      by apply Forall_forall.
    - rewrite sanitize_filename_cons, safe_text_cons, <- IH.
      unfold sanitize_char. split.
      + intros [= Hc Ht]. split; [|done]. case_decide; [|done].
        subst c. by apply (bool_decide_unpack _).
      + intros [Hc ->]. by rewrite decide_False. }
  split; [apply Hfix|]. apply Hfix, sanitize_filename_safe.
Qed.

(** X8.  [infospin] never fails to index its eight characters, whatever
    the counter held before: it stores the next index, taken modulo 8,
    shows the character at that index, and after the first call eight
    more calls bring the same index back. *)
Theorem infospin_cycles (self : LoggerObject.logger) (args : list value)
    (con : Logger.console) :
  let n := (LoggerObject._loadspin_n self + 1) `mod` 8 in
  let spin := fun l => (LoggerObject.infospin l args con).1 in
  0 ≤ n < 8
  ∧ (∃ ch, LoggerObject.chars !! Z.to_nat n = Some ch
           ∧ LoggerObject.infospin self args con
             = (LoggerObject.LoggerOf (LoggerObject._module self) n,
                Ok (Logger.infol (LoggerObject._module self)
                                 (VStr ch :: args) con)))
  ∧ LoggerObject._loadspin_n (Nat.iter 8 spin (spin self)) = n.
Proof.
  intros n spin.
  assert (0 ≤ n < 8) as Hn by (apply Z.mod_pos_bound; lia).
  split; [done|]. split.
  - unfold LoggerObject.infospin, Text.getitem_int, list_getitem.
    change (Z.of_nat (length LoggerObject.chars)) with 8. fold n.
    rewrite decide_True by done.
    destruct (LoggerObject.chars !! Z.to_nat n) as [ch|] eqn:Hch.
    + by exists ch.
    + apply lookup_ge_None in Hch. simpl in Hch. lia.
  - unfold spin. simpl. change (Z.of_nat 8) with 8. fold n.
    clearbody n. clear spin.
    assert (n = 0 ∨ n = 1 ∨ n = 2 ∨ n = 3 ∨ n = 4 ∨ n = 5 ∨ n = 6 ∨ n = 7)
      as Hcases by lia.
    by repeat destruct Hcases as [->|Hcases]; try subst n.
Qed.
End Sanitize.

(** ** The status parser and the recording loop *)

Section Recording.
Implicit Types (line : string) (con : Logger.console)
               (reads good rest : list (result string)).

Lemma parse_tokens_dom toks : ∀ prev (stats : gmap string value),
  dom stats ⊆ dom (Spec.parse_tokens prev toks stats).
Proof.
  induction toks as [|t toks IH]; intros prev stats; simpl; [done|].
  etrans; [|apply IH]. unfold Spec.assign.
  repeat case_match; try done; rewrite dom_insert; set_solver.
Qed.

(** X9.  On a line that was read, [get_status] raises nothing but
    [ValueError] (the end of [last_item] is always there to look at), and
    a record it returns has every key of the defaults. *)
Theorem get_status_value_error_only line :
  (∃ stats, get_status (Ok line) = Ok stats
            ∧ dom default_stats ⊆ dom stats)
  ∨ get_status (Ok line) = Raise ValueError.
Proof.
  rewrite get_status_parse. destruct (Spec.splits_in_two _ _); [left|by right].
  eexists. split; [done|]. apply parse_tokens_dom.
Qed.

Lemma print_status_console read con :
  Logger.LOGLEVEL_INFO ≤ Logger.loglevel con →
  Logger.loglevel (print_status read con).2 = Logger.loglevel con
  ∧ ∃ call, Logger.stdout (print_status read con).2
            = Logger.stdout con ++ [call]
            ∧ ((print_status read con).1 = false →
               call = Logger.Print [VStr ""] Logger.LF).
Proof.
  intros Hlevel. unfold print_status.
  destruct (_ ≫= _) as [args|e]; simpl.
  - unfold Logger.infol. rewrite decide_True by done. simpl.
    split; [done|]. by eexists.
  - unfold Logger.endl. rewrite decide_True by done. simpl.
    split; [done|]. by eexists.
Qed.

(** X10.  The recording loop of [download] goes on for as long as the
    status lines are read and parsed, and is left at the first read that
    fails or does not parse, the reads after it untouched; at log level
    INFO or above it has then printed one status for each good line and
    an empty line at the end.  While every read succeeds the loop is not
    left. *)
Theorem recording_loop_stops_at_first_failure good (bad : result string)
    rest con :
  Forall (fun read => is_ok (get_status read) = true) good →
  is_ok (get_status bad) = false →
  Logger.LOGLEVEL_INFO ≤ Logger.loglevel con →
  (∃ con', Downloader.recording_loop (good ++ bad :: rest) con
           = (true, con', rest)
           ∧ length (Logger.stdout con')
             = (length (Logger.stdout con) + length good + 1)%nat
           ∧ last (Logger.stdout con')
             = Some (Logger.Print [VStr ""] Logger.LF))
  ∧ (Downloader.recording_loop good con).1.1 = false.
Proof.
  intros Hgood Hbad. revert con.
  induction Hgood as [|read good Hread _ IH]; intros con Hlevel; simpl.
  - split; [|done].
    pose proof (print_status_is_ok bad con) as Hret.
    destruct (print_status_console bad con Hlevel)
      as (_ & call & Hout & Hcall).
    destruct (print_status bad con) as [[] con']; simpl in *;
      [congruence|].
    exists con'. split; [done|]. rewrite Hout, length_app, last_snoc.
    split; [simpl; lia|]. f_equal. apply Hcall. congruence.
  - pose proof (print_status_is_ok read con) as Hret.
    destruct (print_status_console read con Hlevel)
      as (Hl & call & Hout & _).
    destruct (print_status read con) as [[] con']; simpl in *;
      [|congruence].
    destruct (IH con') as [(con'' & Hloop & Hlen & Hlast) Hstay]; [lia|].
    split; [|done]. exists con''. split; [done|]. split; [|done].
    rewrite Hlen, Hout, length_app. simpl. lia.
Qed.

Lemma recording_loop_stops_at_first_failure_witness :
  ∃ con', Downloader.recording_loop
            ([Ok "time=00:00:01.00 size=10kB"]
               ++ Raise IncompleteReadError :: [Ok "time=00:00:02.00"])
            Logger.initial
          = (true, con', [Ok "time=00:00:02.00"])
          ∧ length (Logger.stdout con')
            = (length (Logger.stdout Logger.initial)
               + length [Ok "time=00:00:01.00 size=10kB"] + 1)%nat
          ∧ last (Logger.stdout con')
            = Some (Logger.Print [VStr ""] Logger.LF).
Proof.
  apply (recording_loop_stops_at_first_failure
           [Ok "time=00:00:01.00 size=10kB"] (Raise IncompleteReadError)
           [Ok "time=00:00:02.00"] Logger.initial);
    [by repeat constructor | done | done].
Defined.
End Recording.

(** ** The control channel, further *)

Section ControlChannelMore.
Import FC2WebSocket.
Implicit Types (msg : value) (s : session) (w : world).

(** *** The ids of the frames sent *)

Lemma sends_nothing_trans s1 s2 s3 :
  sends_nothing s1 s2 → sends_nothing s2 s3 → sends_nothing s1 s3.
Proof. intros [? ?] [? ?]. split; congruence. Qed.

Lemma receive_message_top_sends_nothing msg_id s :
  sends_nothing s (_receive_message_top msg_id s).2.
Proof. unfold _receive_message_top. by repeat case_match. Qed.

Lemma receive_message_frame_sends_nothing msg_id msg s :
  sends_nothing s (_receive_message_frame msg_id msg s).2.
Proof.
  unfold _receive_message_frame.
  repeat case_match; try done;
    (eapply sends_nothing_trans;
     [|apply receive_message_top_sends_nothing]); done.
Qed.

Lemma handle_incoming_body_sends_nothing msg s :
  sends_nothing s (_handle_incoming_body msg s).2.
Proof.
  unfold _handle_incoming_body.
  repeat case_match; simpl; by rewrite ?dropped_put_fold.
Qed.

Lemma handle_incoming_frame_sends_nothing msg s :
  sends_nothing s (_handle_incoming_frame msg s).2.
Proof.
  unfold _handle_incoming_frame.
  pose proof (receive_message_frame_sends_nothing None msg s) as [Hi Ho].
  destruct (_receive_message_frame None msg s) as [[m|e|] s']; simpl in *;
    [|done..].
  eapply sends_nothing_trans; [|apply handle_incoming_body_sends_nothing].
  by split.
Qed.

Lemma counts_up_same s s' : sends_nothing s s' → counts_up s → counts_up s'.
Proof. intros [Hi Ho] [? ?]. unfold counts_up. by rewrite Hi, Ho. Qed.

Lemma counts_up_send name arguments s :
  counts_up s → counts_up (_send_message_call name arguments s).
Proof.
  intros [Hpos Hids]. unfold counts_up, _send_message_call, frame_ids in *.
  simpl. split; [lia|].
  rewrite fmap_app, Hids. simpl.
  rewrite (seqZ_app 1 (_msg_id s) 1) by lia.
  rewrite fmap_app. f_equal.
  rewrite seqZ_cons by lia. rewrite seqZ_nil by lia. simpl.
  do 3 f_equal. lia.
Qed.

Lemma counts_up_step t w w' :
  step t w = Some w' → counts_up (ws w) → counts_up (ws w').
Proof.
  destruct t as [| |i].
  - unfold step, incoming_step.
    destruct (incoming w); [|done].
    destruct (inbox (ws w)) as [|msg rest]; [done|].
    pose proof (handle_incoming_frame_sends_nothing msg
                  (set_inbox rest (ws w))) as Hs.
    destruct (_handle_incoming_frame msg _) as [[[]|e|] s1];
      intros [= <-]; by apply counts_up_same.
  - unfold step. destruct (heartbeat w); intros [= <-]; simpl; [|done].
    intros H. apply counts_up_send. by eapply counts_up_same.
  - intros (c & c' & s' & _ & Hstep & ->)%step_call_inv. simpl.
    destruct c as [| |msg_id|r|e]; unfold call_step in Hstep; try done.
    + injection Hstep as _ <-. apply counts_up_send.
    + pose proof (receive_message_top_sends_nothing
                    (Some (_send_message_return (ws w))) (ws w)) as Hs.
      destruct (_receive_message_top _ (ws w)) as [p s1].
      injection Hstep as _ <-. by apply counts_up_same.
    + destruct (inbox (ws w)) as [|msg rest]; [done|].
      pose proof (receive_message_frame_sends_nothing (Some msg_id) msg
                    (set_inbox rest (ws w))) as Hs.
      destruct (_receive_message_frame _ msg _) as [p s1].
      injection Hstep as _ <-. by apply counts_up_same.
Qed.

(** X11.  Under every schedule, whoever sends (the calls, the heartbeat),
    the frames handed to [send_json] carry the ids 1, 2, 3, ... in the
    order they were sent, up to the current value of the counter: no id
    is sent twice in a session. *)
Theorem sent_ids_count_up frames n schedule w :
  run schedule (__aenter__ frames n) = Some w →
  frame_ids (outbox (ws w))
  = (fun i => Ok (VInt i)) <$> seqZ 1 (_msg_id (ws w))
  ∧ NoDup (frame_ids (outbox (ws w))).
Proof.
  assert (∀ w0 w1, run schedule w0 = Some w1
                   → counts_up (ws w0) → counts_up (ws w1)) as Hrun.
  { induction schedule as [|t schedule IH]; intros w0 w1; simpl.
    - by intros [= <-].
    - destruct (step t w0) as [w0'|] eqn:Hstep; [|done]. simpl.
      intros Hrest Hc. apply (IH _ _ Hrest). by apply (counts_up_step t w0). }
  intros Hw. destruct (Hrun _ _ Hw) as [Hpos Hids]; [by split|].
  split; [done|]. rewrite Hids. apply NoDup_fmap_2; [|apply NoDup_seqZ].
  by intros i j [= ->].
Qed.

Lemma sent_ids_count_up_witness :
  frame_ids [request "get_hls_information" 1; request "heartbeat" 2;
             request "heartbeat" 3]
  = (fun i => Ok (VInt i)) <$> seqZ 1 3
  ∧ NoDup (frame_ids [request "get_hls_information" 1;
                      request "heartbeat" 2; request "heartbeat" 3]).
Proof.
  exact (sent_ids_count_up [] 1
           [Call 0; Heartbeat; Heartbeat; Heartbeat]
           (World
              (Session 3 ∅ false [] Logger.initial []
                 [request "get_hls_information" 1; request "heartbeat" 2;
                  request "heartbeat" 3])
              IncomingAwaits HeartbeatSending [CallSending])
           eq_refl).
Defined.

(** *** What the response table holds, and for how long *)

(** X12.  Under every schedule each entry of the response table is one of
    the frames the socket delivered, named [_response_], stored whole
    under its own id: the dispatch loop's branch that would store the
    arguments alone (line 120) is never taken, because
    [_receive_message] keeps every [_response_] frame for itself. *)
Theorem response_table_holds_whole_frames frames n schedule w i v :
  run schedule (__aenter__ frames n) = Some w →
  _msg_responses (ws w) !! i = Some v →
  v ∈ frames ∧ response_to i v.
Proof.
  intros Hrun Hv.
  assert (filed_by_id frames (ws w)) as (taken & Hfr & Htab).
  { eapply filed_by_id_run; [done|]. exists []. by split. }
  destruct (Htab _ _ Hv) as [Hin Hresp]. split; [|done].
  rewrite Hfr. apply elem_of_app. by left.
Qed.

Lemma response_table_holds_whole_frames_witness :
  response 7 reply_to_1 ∈ [response 7 reply_to_1]
  ∧ response_to 7 (response 7 reply_to_1).
Proof.
  exact (response_table_holds_whole_frames [response 7 reply_to_1] 0
           [Incoming]
           (World (Session 0 {[ 7 := response 7 reply_to_1 ]} false []
                           Logger.initial [] [])
                  IncomingAwaits HeartbeatLoop [])
           7 (response 7 reply_to_1) eq_refl eq_refl).
Defined.

Lemma call_after_returned msg_id p r :
  call_after msg_id p = CallReturned r → ∃ v, p = Returns v.
Proof.
  destruct p as [v|e|]; simpl; [by eexists|done..].
Qed.

Lemma receive_message_top_pops i s v :
  (_receive_message_top (Some i) s).1 = Returns v →
  _msg_responses (_receive_message_top (Some i) s).2 !! i = None.
Proof.
  unfold _receive_message_top.
  destruct (_msg_responses s !! i); simpl; [|done].
  intros _. apply lookup_delete_eq.
Qed.

Lemma receive_message_frame_pops i msg s v :
  (_receive_message_frame (Some i) msg s).1 = Returns v →
  _msg_responses (_receive_message_frame (Some i) msg s).2 !! i = None.
Proof.
  unfold _receive_message_frame.
  repeat case_match; try done; apply receive_message_top_pops.
Qed.

(** X13.  A response is handed out once: when a call that waited for
    [msg_id] returns, the table has no entry under [msg_id] any more. *)
Theorem returned_response_is_removed w w' i msg_id r :
  calls w !! i = Some (CallAwaits msg_id) →
  step (Call i) w = Some w' →
  calls w' !! i = Some (CallReturned r) →
  _msg_responses (ws w') !! msg_id = None.
Proof.
  intros Hc (c & c' & s' & Hc0 & Hcall & ->)%step_call_inv Hc'.
  rewrite Hc in Hc0. injection Hc0 as <-. simpl in *.
  rewrite list_lookup_insert_eq in Hc' by (by eapply lookup_lt_Some).
  injection Hc' as ->. unfold call_step in Hcall.
  destruct (inbox (ws w)) as [|msg rest]; [done|].
  pose proof (receive_message_frame_pops msg_id msg
                (set_inbox rest (ws w))) as Hpop.
  destruct (_receive_message_frame _ msg _) as [p s1].
  injection Hcall as Hp <-.
  apply call_after_returned in Hp as [v ->]. by eapply Hpop.
Qed.

Lemma returned_response_is_removed_witness :
  _msg_responses
    (ws (World (Session 1 ∅ false [] Logger.initial []
                        [request "get_hls_information" 1])
               IncomingAwaits HeartbeatLoop [CallReturned reply_to_1]))
  !! 1 = None.
Proof.
  exact (returned_response_is_removed
           (World (Session 1 ∅ false [] Logger.initial
                           [response 1 reply_to_1]
                           [request "get_hls_information" 1])
                  IncomingAwaits HeartbeatLoop [CallAwaits 1])
           _ 0%nat 1 reply_to_1 eq_refl eq_refl eq_refl).
Defined.

Lemma push_is_dropped msg rest s (msg_id : Z) :
  is_push msg →
  inbox s = msg :: rest →
  _msg_responses s !! msg_id = None →
  call_step (CallAwaits msg_id) s
  = Some (CallAwaits msg_id, trace [VStr "<"; msg] (set_inbox rest s)).
Proof.
  intros (name & Hname & Hresp) Hin Hnone.
  unfold call_step, _receive_message_frame, _receive_message_top.
  rewrite Hin, Hname, Hresp. simpl. by rewrite Hnone.
Qed.

Lemma trace_received msg s :
  trace [VStr "<"; msg] s = set_console (shown_at_trace msg (console s)) s.
Proof.
  unfold trace, Logger.trace, shown_at_trace.
  by destruct (decide (Logger.LOGLEVEL_TRACE ≤ Logger.loglevel (console s))).
Qed.

(** X14.  A push (any frame with a name other than [_response_]: a
    comment, a disconnection notice, [connect_complete]) that reaches a
    call waiting for a response not yet in the table is dropped by the
    call: the frame is off the socket, the terminal shows it at log
    level TRACE alone, and nothing else changes; the call goes on
    waiting, and the dispatch loop never sees the frame. *)
Theorem waiting_call_drops_push msg rest s (msg_id : Z) :
  is_push msg →
  inbox s = msg :: rest →
  _msg_responses s !! msg_id = None →
  call_step (CallAwaits msg_id) s
  = Some (CallAwaits msg_id,
          set_console (shown_at_trace msg (console s)) (set_inbox rest s)).
Proof.
  intros Hmsg Hin Hnone.
  by rewrite (push_is_dropped msg rest s msg_id), trace_received.
Qed.

Lemma waiting_call_drops_push_witness :
  call_step (CallAwaits 1) (__init__ [control_disconnection 4101])
  = Some (CallAwaits 1, __init__ []).
Proof.
  apply (waiting_call_drops_push (control_disconnection 4101) []
           (__init__ [control_disconnection 4101]) 1);
    [by exists (VStr "control_disconnection") | done | done].
Defined.

(** *** Readiness *)

Lemma receive_message_top_ready msg_id s :
  _is_ready (_receive_message_top msg_id s).2 = _is_ready s
  ∧ inbox (_receive_message_top msg_id s).2 = inbox s.
Proof. unfold _receive_message_top. by repeat case_match. Qed.

Lemma receive_message_frame_ready msg_id msg s :
  _is_ready (_receive_message_frame msg_id msg s).2 = _is_ready s
  ∧ inbox (_receive_message_frame msg_id msg s).2 = inbox s.
Proof.
  unfold _receive_message_frame.
  repeat case_match; try done;
    match goal with
    | |- context [_receive_message_top ?i ?s'] =>
        destruct (receive_message_top_ready i s') as [-> ->]
    end; done.
Qed.

Lemma ready_by_frame_same frames s s' :
  _is_ready s' = _is_ready s → inbox s' = inbox s →
  ready_by_frame frames s → ready_by_frame frames s'.
Proof. intros Hr Hi. unfold ready_by_frame. by rewrite Hr, Hi. Qed.

Lemma ready_by_frame_take frames msg rest s :
  inbox s = msg :: rest → ready_by_frame frames s →
  msg ∈ frames ∧ ready_by_frame frames (set_inbox rest s).
Proof.
  intros Hin [Hsub Hready]. rewrite Hin in Hsub. split.
  - apply Hsub. by left.
  - split; [|done]. simpl. intros m Hm. apply Hsub. by right.
Qed.

Lemma ready_by_frame_body frames msg s :
  msg ∈ frames → ready_by_frame frames s →
  ready_by_frame frames (_handle_incoming_body msg s).2.
Proof.
  intros Hmsg Hr. unfold _handle_incoming_body.
  destruct (getitem msg "name") as [name|e] eqn:Hname; [|done].
  destruct (eq_str name "connect_complete") eqn:Hcc.
  { destruct Hr as [Hsub _]. split; [done|]. intros _. by exists msg, name. }
  repeat case_match; simpl; rewrite ?dropped_put_fold; try done;
    by eapply ready_by_frame_same.
Qed.

Lemma ready_by_frame_step frames t w w' :
  step t w = Some w' →
  ready_by_frame frames (ws w) → ready_by_frame frames (ws w').
Proof.
  destruct t as [| |i].
  - unfold step, incoming_step, _handle_incoming_frame.
    destruct (incoming w); [|done].
    destruct (inbox (ws w)) as [|msg rest] eqn:Hin; [done|].
    intros Hstep Hr.
    destruct (ready_by_frame_take _ _ _ _ Hin Hr) as [Hmsg Hr'].
    destruct (receive_message_frame_ready None msg (set_inbox rest (ws w)))
      as [Hrd Hib].
    assert (∀ m, (_receive_message_frame None msg
                    (set_inbox rest (ws w))).1 = Returns m → m = msg)
      as Hsame.
    { unfold _receive_message_frame, _receive_message_top. intros m.
      repeat case_match; simpl; try done; by intros [= ->]. }
    destruct (_receive_message_frame None msg _) as [[m|e|] s1];
      simpl in *.
    + rewrite (Hsame m eq_refl) in Hstep.
      pose proof (ready_by_frame_body frames msg s1 Hmsg
                    (ready_by_frame_same frames (set_inbox rest (ws w)) s1
                       Hrd Hib Hr')) as Hb.
      destruct (_handle_incoming_body msg s1) as [[[]|e|] s2];
        by injection Hstep as <-.
    + injection Hstep as <-.
      exact (ready_by_frame_same frames (set_inbox rest (ws w)) s1
               Hrd Hib Hr').
    + injection Hstep as <-.
      exact (ready_by_frame_same frames (set_inbox rest (ws w)) s1
               Hrd Hib Hr').
  - unfold step. destruct (heartbeat w); intros [= <-]; simpl; [|done].
    by apply ready_by_frame_same.
  - intros (c & c' & s' & _ & Hstep & ->)%step_call_inv Hr. simpl.
    destruct c as [| |msg_id|r|e]; unfold call_step in Hstep; try done.
    + injection Hstep as _ <-. by eapply ready_by_frame_same.
    + destruct (receive_message_top_ready
                  (Some (_send_message_return (ws w))) (ws w)) as [Hrd Hib].
      destruct (_receive_message_top _ (ws w)) as [p s1].
      injection Hstep as _ <-. by eapply ready_by_frame_same.
    + destruct (inbox (ws w)) as [|msg rest] eqn:Hin; [done|].
      destruct (ready_by_frame_take _ _ _ _ Hin Hr) as [_ Hr'].
      destruct (receive_message_frame_ready (Some msg_id) msg
                  (set_inbox rest (ws w))) as [Hrd Hib].
      destruct (_receive_message_frame _ msg _) as [p s1].
      injection Hstep as _ <-.
      exact (ready_by_frame_same frames (set_inbox rest (ws w)) s1
               Hrd Hib Hr').
Qed.

(** X15.  Under every schedule a session is marked ready only if the
    server sent a frame named [connect_complete]; nothing else sets
    [_is_ready]. *)
Theorem ready_only_by_connect_complete frames n schedule w :
  run schedule (__aenter__ frames n) = Some w →
  _is_ready (ws w) = true →
  ∃ msg name, msg ∈ frames ∧ getitem msg "name" = Ok name
              ∧ eq_str name "connect_complete" = true.
Proof.
  assert (∀ w0 w1, run schedule w0 = Some w1
                   → ready_by_frame frames (ws w0)
                   → ready_by_frame frames (ws w1)) as Hrun.
  { induction schedule as [|t schedule IH]; intros w0 w1; simpl.
    - by intros [= <-].
    - destruct (step t w0) as [w0'|] eqn:Hstep; [|done]. simpl.
      intros Hrest Hr. apply (IH _ _ Hrest).
      by apply (ready_by_frame_step frames t w0). }
  intros Hw. destruct (Hrun _ _ Hw) as [_ Hready]; [|done].
  split; [done|]. done.
Qed.

Lemma ready_only_by_connect_complete_witness :
  ∃ msg name,
    msg ∈ [VDict [("name", VStr "connect_complete")]]
    ∧ getitem msg "name" = Ok name
    ∧ eq_str name "connect_complete" = true.
Proof.
  apply (ready_only_by_connect_complete
           [VDict [("name", VStr "connect_complete")]] 0 [Incoming]
           (World (Session 0 ∅ true [] Logger.initial [] [])
                  IncomingAwaits HeartbeatLoop []));
    done.
Defined.

(** *** A call on its own *)

Lemma step_lone_call c s inc hb :
  step (Call 0) (World s inc hb [c])
  = (fun '(c', s') => World s' inc hb [c']) <$> call_step c s.
Proof.
  unfold step. cbn -[call_step]. by destruct (call_step c s) as [[? ?]|].
Qed.

Lemma awaiting_call_is_served pushes (a : value) rest inc hb : ∀ s,
  Forall is_push pushes →
  _msg_responses s !! 1 = None →
  inbox s = pushes ++ response 1 a :: rest →
  ∃ s', run (replicate (length pushes + 1) (Call 0))
            (World s inc hb [CallAwaits 1])
        = Some (World s' inc hb [CallReturned a])
        ∧ inbox s' = rest ∧ outbox s' = outbox s.
Proof.
  induction pushes as [|msg pushes IH]; intros s Hpush Hnone Hin.
  - simpl in Hin. cbn [length replicate run Nat.add].
    rewrite step_lone_call.
    unfold call_step, _receive_message_frame, _receive_message_top.
    rewrite Hin. simpl. rewrite lookup_insert_eq. simpl. by eexists.
  - apply Forall_cons in Hpush as [Hmsg Hpush]. simpl in Hin.
    cbn [length replicate run Nat.add].
    rewrite step_lone_call.
    rewrite (push_is_dropped msg _ s 1 Hmsg Hin Hnone).
    cbn [fmap option_fmap option_map mbind option_bind].
    destruct (IH (trace [VStr "<"; msg]
                    (set_inbox (pushes ++ response 1 a :: rest) s)))
      as (s' & Hrun & Hrest & Hout); [done..|].
    exists s'. by rewrite <- Hrun.
Qed.

Lemma run_app schedule1 schedule2 w :
  run (schedule1 ++ schedule2) w = run schedule1 w ≫= run schedule2.
Proof.
  revert w. induction schedule1 as [|t schedule1 IH]; intros w; [done|].
  cbn [app run]. destruct (step t w) as [w'|]; [apply IH|done].
Qed.

Lemma lone_call_starts frames :
  run [Call 0; Call 0] (__aenter__ frames 1)
  = Some (World (Session 1 ∅ false [] Logger.initial frames
                         [request "get_hls_information" 1])
                IncomingAwaits HeartbeatLoop [CallAwaits 1]).
Proof. reflexivity. Qed.

(** X16.  A call that runs alone on a fresh session sends the id 1, lets
    the pushes that come before its response pass, and returns the
    arguments of the response to 1, leaving on the socket what the
    server sent after it. *)
Theorem lone_call_returns_its_response pushes (a : value) rest :
  Forall is_push pushes →
  ∃ w, run (replicate (length pushes + 3) (Call 0))
           (__aenter__ (pushes ++ response 1 a :: rest) 1)
       = Some w
       ∧ calls w = [CallReturned a]
       ∧ inbox (ws w) = rest
       ∧ outbox (ws w) = [request "get_hls_information" 1].
Proof.
  intros Hpush.
  replace (replicate (length pushes + 3) (Call 0))
    with ([Call 0; Call 0] ++ replicate (length pushes + 1) (Call 0))
    by (by rewrite Nat.add_comm with (m := 3%nat), Nat.add_comm).
  rewrite run_app, lone_call_starts. cbn [mbind option_bind].
  destruct (awaiting_call_is_served pushes a rest IncomingAwaits
              HeartbeatLoop
              (Session 1 ∅ false [] Logger.initial
                       (pushes ++ response 1 a :: rest)
                       [request "get_hls_information" 1]) Hpush)
    as (s' & -> & Hrest & Hout); [done..|].
  eexists. split; [done|]. by split_and!.
Qed.

Lemma lone_call_returns_its_response_witness :
  ∃ w, run (replicate (length [comment_push []] + 3) (Call 0))
           (__aenter__ ([comment_push []] ++ response 1 reply_to_1 :: []) 1)
       = Some w
       ∧ calls w = [CallReturned reply_to_1]
       ∧ inbox (ws w) = []
       ∧ outbox (ws w) = [request "get_hls_information" 1].
Proof.
  apply (lone_call_returns_its_response [comment_push []] reply_to_1 []).
  repeat constructor. by exists (VStr "comment").
Defined.

(** X17 and X18: the two facts about a call's id, on an example. *)
Lemma call_returns_response_to_awaited_id_witness :
  ∃ v, v ∈ [response 1 reply_to_1] ∧ response_to 1 v
       ∧ getitem v "arguments" = Ok reply_to_1.
Proof.
  exact (call_returns_response_to_awaited_id [response 1 reply_to_1] 1
           [Call 0; Call 0]
           (World (Session 1 ∅ false [] Logger.initial
                           [response 1 reply_to_1]
                           [request "get_hls_information" 1])
                  IncomingAwaits HeartbeatLoop [CallAwaits 1])
           (World (Session 1 ∅ false [] Logger.initial []
                           [request "get_hls_information" 1])
                  IncomingAwaits HeartbeatLoop [CallReturned reply_to_1])
           0%nat 1 reply_to_1 eq_refl eq_refl eq_refl eq_refl).
Defined.

End ControlChannelMore.

(** ** The member API: [get_meta], [is_online], [wait_for_online] *)

Section MemberApi.
Import FC2LiveStream.
Implicit Types (st : stream) (d meta : value) (version : string)
               (rest : list (result value)) (interval : Z).





Lemma get_meta_done force st d st' :
  get_meta force st = (Done d, st') → _meta st' = d.
Proof.
  unfold get_meta, post.
  destruct (is_not_None (_meta st) && negb force); [by intros [= <- <-]|].
  cbn. destruct (replies st) as [|[body|e] rest]; [done| |done].
  destruct (getitem body "data"); [|done]. by intros [= <- <-].
Qed.

Lemma get_meta_cached st :
  _meta st ≠ VNone → get_meta false st = (Done (_meta st), st).
Proof.
  intros Hm. unfold get_meta. by destruct (_meta st).
Qed.

Lemma get_meta_posts st :
  _meta st = VNone →
  posted (get_meta false st).2 = posted st ++ [member_request (channel_id st)].
Proof.
  intros Hm. unfold get_meta, post. rewrite Hm. cbn.
  destruct (replies st) as [|[body|e] rest]; [done| |done].
  by destruct (getitem body "data").
Qed.

(** The class's own exception is raised by none of its coroutines. *)
Lemma get_meta_failed force st e st' :
  get_meta force st = (Failed e, st') → ∃ b, e = Builtin b.
Proof.
  unfold get_meta, post.
  destruct (is_not_None (_meta st) && negb force); [done|].
  cbn. destruct (replies st) as [|[body|b] rest]; [done| |].
  - destruct (getitem body "data") as [|b]; [done|].
    intros [= <- <-]. by exists b.
  - intros [= <- <-]. by exists b.
Qed.

Lemma is_online_failed st e st' :
  is_online st = (Failed e, st') → ∃ b, e = Builtin b.
Proof.
  unfold is_online.
  destruct (get_meta true st) as [[meta|e1|] st1] eqn:Hm; [| |done].
  - match goal with |- context [match ?r with Ok _ => _ | Raise _ => _ end] =>
      destruct r as [n|b] end; [done|].
    intros [= <- <-]. by exists b.
  - intros [= <- <-]. by apply get_meta_failed in Hm.
Qed.

Lemma wait_for_online_loop_failed (polls : nat) interval : ∀ st e st',
  wait_for_online_loop polls interval st = (Failed e, st') →
  ∃ b, e = Builtin b.
Proof.
  induction polls as [|polls IH]; intros st e st'; [done|].
  cbn [wait_for_online_loop].
  destruct (is_online st) as [[[|]|e1|] st1] eqn:Hon; [done| | |done].
  - destruct (spin_and_sleep (Z.to_nat interval) st1) as [st2|b];
      [apply IH|]. intros [= <- <-]. by exists b.
  - intros [= <- <-]. by apply is_online_failed in Hon.
Qed.

Lemma is_online_true st st' :
  is_online st = (Done true, st') → meta_online (_meta st').
Proof.
  unfold is_online.
  destruct (get_meta true st) as [[meta|e1|] st1] eqn:Hm; [|done|done].
  apply get_meta_done in Hm. subst meta. unfold meta_online.
  destruct (getitem (_meta st1) "channel_data") as [cd|] eqn:Hcd; cbn;
    [|done].
  destruct (getitem cd "version") as [v|] eqn:Hv; cbn; [|done].
  destruct (Text.len v) as [n|] eqn:Hlen; [|done].
  intros [= Hn <-]. apply bool_decide_eq_true in Hn. by exists cd, v, n.
Qed.

(** X19.  [get_meta] keeps what it fetched: once a call has returned
    data other than [None], a call without [force_refetch] returns the
    same data and posts nothing; when the reply's [data] was [None]
    (JSON null), the next call posts the request again. *)
Theorem get_meta_reuses_fetched_data (force : bool) st d st' :
  get_meta force st = (Done d, st') →
  _meta st' = d
  ∧ (d ≠ VNone → get_meta false st' = (Done d, st'))
  ∧ (d = VNone →
     posted (get_meta false st').2
     = posted st' ++ [member_request (channel_id st')]).
Proof.
  intros Hget. apply get_meta_done in Hget. subst d.
  split; [done|]. split.
  - apply get_meta_cached.
  - apply get_meta_posts.
Qed.

Lemma get_meta_reuses_fetched_data_witness :
  let st := __init__ (VStr "123") [member_reply "v1"] in
  let st' := (get_meta true st).2 in
  get_meta false st' = (Done (member_data "v1"), st')
  ∧ length (posted st') = 1%nat.
Proof.
  intros st st'. split; [|done].
  apply (get_meta_reuses_fetched_data true st (member_data "v1") st');
    done.
Defined.







Lemma wait_for_online_loop_done (polls : nat) interval : ∀ st st',
  wait_for_online_loop polls interval st = (Done tt, st') →
  meta_online (_meta st').
Proof.
  induction polls as [|polls IH]; intros st st'; [done|].
  cbn [wait_for_online_loop].
  destruct (is_online st) as [[[|]|e1|] st1] eqn:Hon; [| |done|done].
  - intros [= <-]. by apply is_online_true in Hon.
  - destruct (spin_and_sleep (Z.to_nat interval) st1) as [st2|b];
      [apply IH|done].
Qed.

(** X22.  [wait_for_online] returns only on the air: whatever the server
    replies, when the coroutine returns the data in [_meta] has a
    [channel_data.version] of positive length, and the coroutine never
    raises [NotOnlineException]. *)
Theorem wait_for_online_returns_on_air interval st :
  (∀ st', wait_for_online interval st = (Done tt, st') →
          meta_online (_meta st'))
  ∧ (wait_for_online interval st).1 ≠ Failed NotOnlineException.
Proof.
  split.
  - intros st'. apply wait_for_online_loop_done.
  - destruct (wait_for_online interval st) as [[[]|e|] st'] eqn:Hw;
      [done| |done].
    apply wait_for_online_loop_failed in Hw as [b ->]. done.
Qed.
End MemberApi.

(** ** [FC2LiveDL.download] up to the websocket url *)

Section Download.
Import FC2LiveStream.
Variable str_ : value → string.
Implicit Types (self : parameters) (st : stream) (version url token : string)
               (rest : list (result value)).

Lemma get_websocket_url_failed st e st' :
  get_websocket_url str_ st = (Failed e, st') → ∃ b, e = Builtin b.
Proof.
  unfold get_websocket_url. cbn [is_online_method negb].
  destruct (get_meta false st) as [[meta|e1|] st1] eqn:Hm; [| |done].
  - match goal with |- context [match ?r with Ok _ => _ | Raise _ => _ end] =>
      destruct r as [v|b] end; [|intros [= <- <-]; by exists b].
    unfold post. cbn.
    destruct (replies st1) as [|[info|b] rest]; [done| |].
    + destruct (control_server_url str_ info) as [|b]; [done|].
      intros [= <- <-]. by exists b.
    + intros [= <- <-]. by exists b.
  - intros [= <- <-]. by apply get_meta_failed in Hm.
Qed.






(** X26.  [NotOnlineException] comes from that one place: when
    [download] raises it, [wait_for_live] is off and the first poll
    returned that the channel is off the air; with [wait_for_live] on it
    is never raised, whatever the server replies. *)
Theorem not_online_only_without_wait self st st' :
  download_to_websocket_url str_ self st = (Failed NotOnlineException, st') →
  wait_for_live self = false ∧ is_online st = (Done false, st').
Proof.
  unfold download_to_websocket_url.
  destruct (is_online st) as [[[|]|e1|] st1] eqn:Hon.
  - destruct (get_meta false _) as [[meta|e2|] st2] eqn:Hm; [| |done].
    + destruct (get_websocket_url str_ st2) as [[u|e3|] st3] eqn:Hw;
        [done| |done].
      apply get_websocket_url_failed in Hw as [b ->]. done.
    + apply get_meta_failed in Hm as [b ->]. done.
  - destruct (wait_for_live self); cbn [negb].
    + destruct (wait_for_online _ st1) as [[[]|e2|] st2] eqn:Hwait;
        [| |done].
      * destruct (get_meta false _) as [[meta|e3|] st3] eqn:Hm; [| |done].
        -- destruct (get_websocket_url str_ st3) as [[u|e4|] st4] eqn:Hw;
             [done| |done].
           apply get_websocket_url_failed in Hw as [b ->]. done.
        -- apply get_meta_failed in Hm as [b ->]. done.
      * apply wait_for_online_loop_failed in Hwait as [b ->]. done.
    + by intros [= <-].
  - apply is_online_failed in Hon as [b ->]. done.
  - done.
Qed.

End Download.




Lemma not_online_only_without_wait_witness :
  let st := FC2LiveStream.__init__ (VStr "123") [member_reply ""] in
  wait_for_live params = false
  ∧ (FC2LiveStream.is_online st).1 = FC2LiveStream.Done false.
Proof.
  intros st.
  destruct (not_online_only_without_wait str_of_text params st
              (FC2LiveStream.download_to_websocket_url str_of_text params
                 st).2 eq_refl) as [Hw Hon].
  split; [done|]. by rewrite Hon.
Defined.


(** ** What the control channel prints *)

Section Silence.
Import FC2WebSocket.
Implicit Types (msg : value) (s : session) (w : world).












End Silence.

(** ** The channel id of [main] *)

Section ChannelId.
Implicit Types (sep s t id rest url : string) (c : ascii).

Lemma append_empty s : s +:+ "" = s.
Proof.
  induction s as [|c s IH]; [done|].
  change (String c (s +:+ "") = String c s). by rewrite IH.
Qed.

Lemma startswith_app sep t : Text.startswith sep (sep +:+ t) = true.
Proof.
  induction sep as [|a sep IH]; simpl; [by destruct t|].
  by rewrite decide_True.
Qed.

Lemma split_from_no_occurrence sep s :
  occurs sep s = false → Text.split_from sep 0 s = [s].
Proof.
  induction s as [|c s IH]; [done|].
  intros [Hhere Hlater]%orb_false_elim.
  cbn [Text.split_from]. rewrite Hhere. by rewrite IH.
Qed.

Lemma split_from_skip sep p t :
  Text.split_from sep (String.length p) (p +:+ t) = Text.split_from sep 0 t.
Proof. induction p as [|a p IH]; [done|]. simpl. apply IH. Qed.

Lemma split_from_at_sep sep t :
  sep ≠ "" →
  Text.split_from sep 0 (sep +:+ t) = "" :: Text.split_from sep 0 t.
Proof.
  destruct sep as [|a sep]; [done|]. intros _.
  change (String a sep +:+ t) with (String a (sep +:+ t)).
  cbn [Text.split_from].
  change (String a (sep +:+ t)) with (String a sep +:+ t).
  rewrite startswith_app. f_equal.
  replace (String.length (String a sep) - 1)%nat with (String.length sep)
    by (simpl; lia).
  apply split_from_skip.
Qed.

Lemma startswith_contains c sep s :
  contains c sep = true → Text.startswith sep s = true →
  contains c s = true.
Proof.
  revert s. induction sep as [|a sep IH]; intros s; [done|].
  destruct s as [|b s]; [done|]. simpl.
  destruct (decide (b = a)) as [->|]; [|done].
  destruct (decide (a = c)); [done|]. apply IH.
Qed.

Lemma occurs_contains c sep s :
  contains c sep = true → occurs sep s = true → contains c s = true.
Proof.
  intros Hc. induction s as [|b s IH].
  - intros Hocc. apply (startswith_contains c sep ""); [done|].
    simpl in Hocc. by rewrite orb_false_r in Hocc.
  - intros [Hhere|Hlater]%orb_prop.
    + by apply (startswith_contains c sep).
    + simpl. rewrite (IH Hlater). by destruct (decide (b = c)).
Qed.

Lemma split_slash_no_slash id :
  contains "/" id = false → Text.split_from "/" 0 id = [id].
Proof.
  intros Hid. apply split_from_no_occurrence.
  destruct (occurs "/" id) eqn:Hocc; [|done].
  apply (occurs_contains "/") in Hocc; [congruence|done].
Qed.

Lemma split_slash_first id rest :
  contains "/" id = false →
  Text.split_from "/" 0 (id +:+ "/" +:+ rest)
  = id :: Text.split_from "/" 0 rest.
Proof.
  induction id as [|c id IH]; intros Hid.
  - apply (split_from_at_sep "/" rest). done.
  - simpl in Hid. destruct (decide (c = "/"%char)) as [|Hc]; [done|].
    change (String c id +:+ "/" +:+ rest)
      with (String c (id +:+ "/" +:+ rest)).
    cbn [Text.split_from Text.startswith].
    rewrite decide_False by done. by rewrite IH.
Qed.

(** X29.  The channel id [main] takes from the url.  For the url
    [https://live.fc2.com/ID] or [https://live.fc2.com/ID/...], where
    [ID] has no slash and the host text occurs once, it is [ID]; a url
    in which the text [https://live.fc2.com] does not occur (another
    scheme, another host), or in which no slash follows it, ends [main]
    with an [IndexError]. *)
Theorem channel_id_of_url_cases :
  (∀ id rest,
     contains "/" id = false →
     occurs fc2_host ("/" +:+ id +:+ rest) = false →
     rest = "" ∨ Text.startswith "/" rest = true →
     Cli.channel_id_of_url (fc2_host +:+ "/" +:+ id +:+ rest) = Ok id)
  ∧ (∀ url, occurs fc2_host url = false →
            Cli.channel_id_of_url url = Raise IndexError)
  ∧ (∀ t, contains "/" t = false →
          Cli.channel_id_of_url (fc2_host +:+ t) = Raise IndexError).
Proof.
  split_and!.
  - intros id rest Hid Honce Hrest.
    unfold Cli.channel_id_of_url, Text.split_str.
    rewrite decide_False by done. cbn [mbind result_bind].
    change "https://live.fc2.com" with fc2_host.
    rewrite (split_from_at_sep fc2_host) by done.
    rewrite (split_from_no_occurrence _ _ Honce).
    cbn [list_getitem lookup list_lookup mbind result_bind].
    rewrite decide_False by done. cbn [mbind result_bind].
    rewrite (split_from_at_sep "/" (id +:+ rest)) by done.
    destruct Hrest as [->|Hrest].
    + rewrite append_empty.
      by rewrite split_slash_no_slash.
    + destruct rest as [|c rest]; [done|]. simpl in Hrest.
      destruct (decide (c = "/"%char)) as [->|]; [|done].
      change (id +:+ String "/" rest) with (id +:+ "/" +:+ rest).
      by rewrite (split_slash_first id rest Hid).
  - intros url Hnone.
    unfold Cli.channel_id_of_url, Text.split_str.
    rewrite decide_False by done. cbn [mbind result_bind].
    change "https://live.fc2.com" with fc2_host.
    by rewrite (split_from_no_occurrence _ _ Hnone).
  - intros t Ht.
    assert (occurs fc2_host t = false) as Honce.
    { destruct (occurs fc2_host t) eqn:Hocc; [|done].
      apply (occurs_contains "/") in Hocc; [congruence|done]. }
    unfold Cli.channel_id_of_url, Text.split_str.
    rewrite decide_False by done. cbn [mbind result_bind].
    change "https://live.fc2.com" with fc2_host.
    rewrite (split_from_at_sep fc2_host) by done.
    rewrite (split_from_no_occurrence _ _ Honce).
    cbn [list_getitem lookup list_lookup mbind result_bind].
    rewrite decide_False by done. cbn [mbind result_bind].
    by rewrite split_slash_no_slash.
Qed.

Lemma channel_id_of_url_cases_witness :
  Cli.channel_id_of_url "https://live.fc2.com/12345678/" = Ok "12345678"
  ∧ Cli.channel_id_of_url "http://live.fc2.com/12345678/" = Raise IndexError
  ∧ Cli.channel_id_of_url "https://live.fc2.com" = Raise IndexError.
Proof.
  destruct channel_id_of_url_cases as (Hid & Hnone & Hbare).
  split_and!.
  - exact (Hid "12345678" "/" eq_refl eq_refl (or_intror eq_refl)).
  - exact (Hnone "http://live.fc2.com/12345678/" eq_refl).
  - exact (Hbare "" eq_refl).
Defined.
End ChannelId.

(** ** The output file name *)

Section OutputName.
Variable str_ : value → string.
Variable percent : string → gmap string value → result string.
Variable now : string.
Implicit Types (self : parameters) (meta : value)
               (overrides finfo : gmap string value).

Lemma empty_text_safe : safe_text "".
Proof. unfold safe_text. by apply Forall_forall. Qed.

Lemma format_outtmpl_finfo_fields meta overrides finfo :
  Downloader._format_outtmpl_finfo str_ now meta overrides = Ok finfo →
  (∀ k v, overrides !! k = Some v → finfo !! k = Some v)
  ∧ (∀ k, k ∈ ["channel_id"; "channel_name"; "title"] →
          overrides !! k = None →
          ∃ s, finfo !! k = Some (VStr s) ∧ safe_text s)
  ∧ (overrides !! "date" = None → finfo !! "date" = Some (VStr now))
  ∧ (overrides !! "ext" = None → finfo !! "ext" = Some (VStr "")).
Proof.
  unfold Downloader._format_outtmpl_finfo.
  destruct (FC2LiveStream.is_not_None meta).
  - destruct (getitem meta "channel_data") as [channel_data|]; [|done].
    cbn [mbind result_bind].
    destruct (getitem channel_data "channelid") as [channelid|]; [|done].
    cbn [mbind result_bind].
    destruct (getitem meta "profile_data") as [profile_data|]; [|done].
    cbn [mbind result_bind].
    destruct (getitem profile_data "name") as [name|]; [|done].
    cbn [mbind result_bind].
    destruct (getitem channel_data "title") as [title|]; [|done].
    cbn [mbind result_bind]. intros [= <-]. split_and!.
    + intros k v Hk. by apply lookup_union_Some_l.
    + intros k Hk Hnone. rewrite lookup_union_r by done.
      apply elem_of_cons in Hk as [->|Hk];
        [|apply elem_of_cons in Hk as [->|Hk];
          [|apply elem_of_cons in Hk as [->|Hk];
            [|by apply elem_of_nil in Hk]]];
        eexists;
        (split; [by simplify_map_eq|apply sanitize_filename_safe]).
    + intros Hnone. rewrite lookup_union_r by done. by simplify_map_eq.
    + intros Hnone. rewrite lookup_union_r by done. by simplify_map_eq.
  - cbn [mbind result_bind]. intros [= <-]. split_and!.
    + intros k v Hk. by apply lookup_union_Some_l.
    + intros k Hk Hnone. rewrite lookup_union_r by done.
      apply elem_of_cons in Hk as [->|Hk];
        [|apply elem_of_cons in Hk as [->|Hk];
          [|apply elem_of_cons in Hk as [->|Hk];
            [|by apply elem_of_nil in Hk]]];
        eexists;
        (split; [by simplify_map_eq|apply empty_text_safe]).
    + intros Hnone. rewrite lookup_union_r by done. by simplify_map_eq.
    + intros Hnone. rewrite lookup_union_r by done. by simplify_map_eq.
Qed.

(** X30.  The file name [_format_outtmpl] returns never starts with a
    dash: it is what the template gives on the fields, with an
    underscore put before it when that starts with a dash.  Of the
    fields, the entries of [overrides] are passed as they are, and the
    channel id, channel name and title that are not overridden are
    texts without any of the nine unsafe characters (the sanitized
    values of [meta], or empty without a [meta]); the date is the
    current time and the extension is empty unless overridden. *)
Theorem format_outtmpl_safe_name self meta overrides fname :
  Downloader._format_outtmpl str_ percent now self meta overrides = Ok fname →
  Text.startswith "-" fname = false
  ∧ ∃ finfo formatted,
      percent (outtmpl self) finfo = Ok formatted
      ∧ fname = (if Text.startswith "-" formatted then "_" +:+ formatted
                 else formatted)
      ∧ (∀ k v, overrides !! k = Some v → finfo !! k = Some v)
      ∧ (∀ k, k ∈ ["channel_id"; "channel_name"; "title"] →
              overrides !! k = None →
              ∃ s, finfo !! k = Some (VStr s) ∧ safe_text s)
      ∧ (overrides !! "date" = None → finfo !! "date" = Some (VStr now))
      ∧ (overrides !! "ext" = None → finfo !! "ext" = Some (VStr "")).
Proof.
  unfold Downloader._format_outtmpl.
  destruct (Downloader._format_outtmpl_finfo str_ now meta overrides)
    as [finfo|] eqn:Hfinfo; [|done].
  cbn [mbind result_bind].
  destruct (percent (outtmpl self) finfo) as [formatted|] eqn:Hfmt; [|done].
  cbn [mbind result_bind]. intros [= <-]. split.
  - destruct formatted as [|c formatted]; [done|]. simpl.
    destruct (decide (c = "-"%char)) as [->|Hc]; [reflexivity|].
    simpl. by rewrite decide_False.
  - exists finfo, formatted. split; [done|]. split; [done|].
    by apply (format_outtmpl_finfo_fields meta).
Qed.
End OutputName.

Lemma format_outtmpl_safe_name_witness :
  let percent := fun (_ : string) (finfo : gmap string value) =>
                   match finfo !! "title" with
                   | Some (VStr s) => Ok ("-" +:+ s)
                   | _ => Raise KeyError
                   end in
  let meta := VDict [("channel_data",
                      VDict [("channelid", VStr "123");
                             ("title", VStr "a/b")]);
                     ("profile_data", VDict [("name", VStr "n")])] in
  Downloader._format_outtmpl str_of_text percent "2021-08-09_120000" params
    meta {[ "ext" := VStr "ts" ]} = Ok "_-a_b"
  ∧ Text.startswith "-" "_-a_b" = false.
Proof.
  intros percent meta. split; [by vm_compute|].
  apply (format_outtmpl_safe_name str_of_text percent "2021-08-09_120000"
           params meta {[ "ext" := VStr "ts" ]} "_-a_b").
  by vm_compute.
Defined.
